(** * tqdb: the sprite sheet packer of [tqdb/utils/images.py]

    A shallow embedding of [SpriteCreator.__init__]: the images of the
    sprite directory are sorted by file name, organised by size in an
    insertion-ordered dictionary, laid out left to right on canvases of
    768 pixels, and the canvases are stacked into the sprite image while
    one CSS rule per image is collected. *)

From Stdlib Require Import ZArith List Bool Lia String Ascii.
From Stdlib Require Import Permutation Sorted DecimalString DecimalZ.
Import ListNotations.
Local Open Scope Z_scope.

(** ** Python built-ins the source relies on *)

Module Py.

Section Sort.
(** [list.sort(key=...)] is a stable sort: elements with equal keys keep
    their relative order.  Insertion from the right, each element going
    in front of the first element whose key is not smaller, computes
    the same list. *)
Context {A K : Type} (key : A -> K) (leb : K -> K -> bool).

Fixpoint insert (a : A) (l : list A) : list A :=
  match l with
  | [] => [a]
  | b :: l' => if leb (key a) (key b) then a :: b :: l' else b :: insert a l'
  end.

Definition sort (l : list A) : list A := fold_right insert [] l.
End Sort.

(** [str(n)] and [f'{n}'] for an [int]. *)
Definition str (n : Z) : string := NilZero.string_of_int (Z.to_int n).

(** [int(s)] on a decimal numeral; [int] raises [ValueError] on anything
    else, which the keys built by the source never are (see
    [key_size_size_key] below), so that case is given the value 0. *)
Definition int (s : string) : Z :=
  match NilZero.int_of_string s with
  | Some d => Z.of_int d
  | None => 0
  end.

(** [s.split(sep)] for a one-character separator. *)
Fixpoint split (sep : ascii) (s : string) : list string :=
  match s with
  | EmptyString => [EmptyString]
  | String c s' =>
      if Ascii.eqb c sep then EmptyString :: split sep s'
      else match split sep s' with
           | [] => [String c EmptyString]
           | h :: t => String c h :: t
           end
  end.

(** [enumerate(l)] *)
Fixpoint enumerate_from {A : Type} (i : nat) (l : list A) : list (nat * A) :=
  match l with
  | [] => []
  | a :: l' => (i, a) :: enumerate_from (S i) l'
  end.

Definition enumerate {A : Type} (l : list A) : list (nat * A) :=
  enumerate_from 0 l.

End Py.

(** ** Images (PIL) *)

Definition rgba : Type := Z * Z * Z * Z.

(** An image opened from a file of the sprite directory; [filename] is the
    base name without extension that the source stores on the object. *)
Record image : Type := {
  filename : string;
  size : Z * Z;
  pixels : list rgba
}.

(** An image made by [Image.new] on which loaded images are pasted.  The
    source never pastes on a canvas after it has appended it to
    [canvases] (the loop ends or [canvas] is bound to a new image), so
    the list can hold the canvases as values; an object appended twice
    shows as two equal entries. *)
Record Canvas : Type := {
  canvas_size : Z * Z;
  canvas_color : rgba;
  pasted : list (image * (Z * Z))
}.

Definition Image_new (sz : Z * Z) (color : rgba) : Canvas :=
  {| canvas_size := sz; canvas_color := color; pasted := [] |}.

Definition paste (c : Canvas) (im : image) (box : Z * Z) : Canvas :=
  {| canvas_size := canvas_size c;
     canvas_color := canvas_color c;
     pasted := pasted c ++ [(im, box)] |}.

(** The sprite image: made by [Image.new], canvases are pasted on it. *)
Record Sprite : Type := {
  sprite_size : Z * Z;
  sprite_color : rgba;
  blits : list (Canvas * (Z * Z))
}.

Definition Sprite_new (sz : Z * Z) (color : rgba) : Sprite :=
  {| sprite_size := sz; sprite_color := color; blits := [] |}.

Definition paste_canvas (s : Sprite) (c : Canvas) (box : Z * Z) : Sprite :=
  {| sprite_size := sprite_size s;
     sprite_color := sprite_color s;
     blits := blits s ++ [(c, box)] |}.

(** ** The CSS rules *)

(** The five arguments of [sprite_css.format]: the class name and four
    integers, each rendered as [f'{v}px'] when nonzero and as [0]
    otherwise. *)
Record css_rule : Type := {
  cls : string;
  pos_x : Z;
  pos_y : Z;
  width : Z;
  height : Z
}.

Definition px (v : Z) : string :=
  if v =? 0 then Py.str v else (Py.str v ++ "px")%string.

Definition nl : string := String (ascii_of_nat 10) EmptyString.

Definition sprite_css (r : css_rule) : string :=
  ("." ++ cls r ++ " {" ++ nl ++
   "  background-position: " ++ px (pos_x r) ++ " " ++ px (pos_y r) ++ ";" ++ nl ++
   "  width: " ++ px (width r) ++ ";" ++ nl ++
   "  height: " ++ px (height r) ++ ";" ++ nl ++ "}" ++ nl)%string.

(** ** Organising the images by size *)

(** The dictionary key [f'{width}x{height}']. *)
Definition size_key (sz : Z * Z) : string :=
  (Py.str (fst sz) ++ "x" ++ Py.str (snd sz))%string.

(** [tuple(map(int, key.split('x')))], unpacked into two names. *)
Definition key_size (key : string) : Z * Z :=
  match map Py.int (Py.split "x" key) with
  | [w; h] => (w, h)
  | _ => (0, 0)
  end.

(** [int(x.split('x')[1])], the sort key of [sorted_keys]. *)
Definition key_height (key : string) : Z :=
  Py.int (nth 1 (Py.split "x" key) EmptyString).

(** A [dict] keeps its keys in insertion order: an association list. *)
Definition images_dict : Type := list (string * list image).

Fixpoint dict_append (m : images_dict) (key : string) (im : image) : images_dict :=
  match m with
  | [] => [(key, [im])]
  | (k, l) :: m' =>
      if String.eqb key k then (k, l ++ [im]) :: m'
      else (k, l) :: dict_append m' key im
  end.

Fixpoint dict_get (m : images_dict) (key : string) : list image :=
  match m with
  | [] => []
  | (k, l) :: m' => if String.eqb key k then l else dict_get m' key
  end.

Definition dict_keys (m : images_dict) : list string := map fst m.

(** [images.sort(key=lambda x: x.filename)].  Python compares strings by
    code point, which on their UTF-8 bytes is the order of [String.leb]. *)
Definition sort_images (images : list image) : list image :=
  Py.sort filename String.leb images.

(** The loop that files every image under the key of its size. *)
Definition organize (images : list image) : images_dict :=
  fold_left (fun m im => dict_append m (size_key (size im)) im) images [].

(** [sorted_keys]: the keys in the order of the dictionary, then sorted by
    height. *)
Definition sorted_keys (m : images_dict) : list string :=
  Py.sort key_height Z.leb (dict_keys m).

(** ** Laying out the rows *)

Definition sprite_width : Z := 768.
Definition transparent : rgba := (0, 0, 0, 0).

(** What survives from one size to the next. *)
Record sheet : Type := {
  css : list css_rule;
  canvases : list Canvas;
  sprite_height : Z
}.

(** The variables of the loop over the images of one size. *)
Record row : Type := {
  r_css : list css_rule;
  r_canvases : list Canvas;
  r_height : Z;
  canvas : Canvas;
  x : Z
}.

Inductive branch : Type := Fits | ExactFit | Overflow.

Definition branch_of (x image_width : Z) : branch :=
  if x + image_width <? sprite_width then Fits
  else if x + image_width =? sprite_width then ExactFit
  else Overflow.

(** One iteration of the loop over [enumerate(images_map[key])]; [len] is
    [len(images_map[key])]. *)
Definition place (canvas_height : Z) (len : nat) (r : row) (ii : nat * image) : row :=
  let '(index, im) := ii in
  let '(image_width, image_height) := size im in
  match branch_of (x r) image_width with
  | Fits =>
      {| r_css := r_css r ++ [{| cls := filename im; pos_x := 0 - x r;
                                 pos_y := 0 - r_height r;
                                 width := image_width; height := image_height |}];
         r_canvases := r_canvases r;
         r_height := r_height r;
         canvas := paste (canvas r) im (x r, 0);
         x := x r + image_width |}
  | ExactFit =>
      let css' := r_css r ++ [{| cls := filename im; pos_x := 0 - x r;
                                 pos_y := 0 - r_height r;
                                 width := image_width; height := image_height |}] in
      let canvas' := paste (canvas r) im (x r, 0) in
      if Z.of_nat index =? Z.of_nat len - 1 then
        {| r_css := css';
           r_canvases := r_canvases r ++ [canvas'];
           r_height := r_height r + canvas_height;
           canvas := canvas';
           x := x r |}
      else
        {| r_css := css';
           r_canvases := r_canvases r;
           r_height := r_height r;
           canvas := canvas';
           x := x r + image_width |}
  | Overflow =>
      let canvases' := r_canvases r ++ [canvas r] in
      let canvas' :=
        paste (Image_new (sprite_width, canvas_height) transparent) im (0, 0) in
      let height' := r_height r + canvas_height in
      {| r_css := r_css r ++ [{| cls := filename im; pos_x := 0;
                                 pos_y := 0 - height';
                                 width := image_width; height := image_height |}];
         r_canvases := canvases';
         r_height := height';
         canvas := canvas';
         x := image_width |}
  end.

(** The "append last row" step after the loop. *)
Definition append_last_row (canvas_height : Z) (r : row) : sheet :=
  if x r <? sprite_width then
    {| css := r_css r;
       canvases := r_canvases r ++ [canvas r];
       sprite_height := r_height r + canvas_height |}
  else
    {| css := r_css r; canvases := r_canvases r; sprite_height := r_height r |}.

Definition start_row (canvas_height : Z) (s : sheet) : row :=
  {| r_css := css s; r_canvases := canvases s; r_height := sprite_height s;
     canvas := Image_new (sprite_width, canvas_height) transparent;
     x := 0 |}.

(** The loop over the images of one size. *)
Definition pack_images (canvas_height : Z) (group : list image) (r : row) : row :=
  fold_left (place canvas_height (List.length group)) (Py.enumerate group) r.

(** The body of [for key in sorted_keys]. *)
Definition pack_key (images_map : images_dict) (s : sheet) (key : string) : sheet :=
  let '(canvas_width, canvas_height) := key_size key in
  let group := dict_get images_map key in
  append_last_row canvas_height
    (pack_images canvas_height group (start_row canvas_height s)).

Definition empty_sheet : sheet :=
  {| css := []; canvases := []; sprite_height := 0 |}.

(** The [try] block, after the test for an empty directory. *)
Definition pack (images : list image) : sheet :=
  let images := sort_images images in
  let images_map := organize images in
  fold_left (pack_key images_map) (sorted_keys images_map) empty_sheet.

(** ** Stacking the canvases *)

Definition compose_step (acc : Sprite * Z) (c : Canvas) : Sprite * Z :=
  let '(sprite_image, sprite_y) := acc in
  (paste_canvas sprite_image c (0, sprite_y), sprite_y + snd (canvas_size c)).

Definition compose (s : sheet) : Sprite :=
  fst (fold_left compose_step (canvases s)
         (Sprite_new (sprite_width, sprite_height s) transparent, 0)).

(** [css.sort()]: the rules are sorted as the strings they are. *)
Definition sort_css (l : list css_rule) : list css_rule :=
  Py.sort sprite_css String.leb l.

(** ** The whole constructor *)

(** How a call ends: with an exception, with the early [return] that
    follows the warning, or with the sprite image and the style sheet that
    are saved.  The source has no [raise] statement and none of the
    operations modelled here raises, so [SpriteCreator_init] never ends
    in [Raised]. *)
Inductive outcome : Type :=
| Raised (exception : string)
| Skipped (warning : string)
| Created (sprite_image : Sprite) (style : list css_rule).

Definition SpriteCreator_init (sprite_dir : string) (images : list image) : outcome :=
  if (Z.of_nat (List.length images) <=? 0) then
    Skipped ("No images found in " ++ sprite_dir ++
             ". Skipping creation of sprite sheet.")%string
  else
    let s := pack images in
    Created (compose s) (sort_css (css s)).

(** ** Scenarios *)

(** An image of the scenarios, without pixel content. *)
Definition img (name : string) (w h : Z) : image :=
  {| filename := name; size := (w, h); pixels := [] |}.

(** * Vocabulary of the properties *)

(** The order of [list.sort(key=...)] on the elements. *)
Definition key_le {A K : Type} (key : A -> K) (leb : K -> K -> bool) (a b : A) : Prop :=
  leb (key a) (key b) = true.

(** The character [c] does not occur in [s]. *)
Fixpoint no_char (c : ascii) (s : string) : Prop :=
  match s with
  | EmptyString => True
  | String a s' => a <> c /\ no_char c s'
  end.

(** The image [im] is filed under [key]. *)
Definition has_key (key : string) (im : image) : bool :=
  String.eqb (size_key (size im)) key.

(** The images in the order in which [pack] places them. *)
Definition placed_order (images : list image) : list image :=
  let m := organize (sort_images images) in
  List.concat (map (dict_get m) (sorted_keys m)).

(** The rule that [sprite_css.format] is given for an image. *)
Definition rule_of (im : image) (px py : Z) : css_rule :=
  {| cls := filename im; pos_x := px; pos_y := py;
     width := fst (size im); height := snd (size im) |}.

(** The test [index == len(images_map[key]) - 1]. *)
Definition is_last (len index : nat) : Prop := Z.of_nat index = Z.of_nat len - 1.

(** The iterations before the last one, for a list of [len] images. *)
Definition pack_front (ch : Z) (len : nat) (front : list image) (r : row) : row :=
  fold_left (place ch len) (Py.enumerate front) r.

(** The condition [ok] holds of every image of [l] with respect to the
    images that come before it. *)
Fixpoint all_ok (ok : list image -> image -> Prop) (seen l : list image) : Prop :=
  match l with
  | [] => True
  | im :: l' => ok seen im /\ all_ok ok (seen ++ [im]) l'
  end.

(** No image placed so far has the name of [im]. *)
Definition fresh (seen : list image) (im : image) : Prop :=
  ~ In (filename im) (map filename seen).

(** [canvas.size[1]] *)
Definition canvas_height (c : Canvas) : Z := snd (canvas_size c).

(** The sum of the heights of the canvases of a list. *)
Definition total_height (cs : list Canvas) : Z :=
  fold_right (fun c acc => canvas_height c + acc) 0 cs.

(** The running height is the sum of the heights of the canvases appended
    so far, during the loop and between two sizes. *)
Definition heights_row (ch : Z) (r : row) : Prop :=
  r_height r = total_height (r_canvases r) /\ canvas_height (canvas r) = ch.

Definition heights_sheet (s : sheet) : Prop :=
  sprite_height s = total_height (canvases s).

(** The canvases with the boxes at which they are pasted, from height [y]. *)
Fixpoint stack (y : Z) (cs : list Canvas) : list (Canvas * (Z * Z)) :=
  match cs with
  | [] => []
  | c :: cs' => (c, (0, y)) :: stack (y + canvas_height c) cs'
  end.

(** The name and the size of an image, and those that a rule states. *)
Definition image_info (im : image) : string * (Z * Z) := (filename im, size im).

Definition rule_info (r : css_rule) : string * (Z * Z) :=
  (cls r, (width r, height r)).

(** Ascending order of the file names, without repetition. *)
Definition name_lt (a b : image) : Prop := String.ltb (filename a) (filename b) = true.

(** The pixel column at which the image of a rule starts. *)
Definition rule_x (r : css_rule) : Z := 0 - pos_x r.

(** The span of a rule lies within the row. *)
Definition in_row (r : css_rule) : Prop :=
  0 <= rule_x r /\ rule_x r + width r <= sprite_width.

(** Two rules with the same vertical position have disjoint spans. *)
Definition apart (r1 r2 : css_rule) : Prop :=
  pos_y r1 = pos_y r2 ->
  rule_x r1 + width r1 <= rule_x r2 \/ rule_x r2 + width r2 <= rule_x r1.

(** A valid image: positive width and height, less than 768 pixels wide. *)
Definition valid_image (im : image) : Prop :=
  0 < fst (size im) < sprite_width /\ 0 < snd (size im).

(** During the loop: the rules at the current height end at or before
    [x], the others are above. *)
Definition spans_row (r : row) : Prop :=
  Forall (fun c => in_row c /\ 0 < width c /\ 0 - r_height r <= pos_y c /\
                   (pos_y c = 0 - r_height r -> rule_x c + width c <= x r))
         (r_css r) /\
  ForallOrdPairs apart (r_css r) /\
  0 <= x r <= sprite_width.

(** Between two sizes: all the rules are above the current height. *)
Definition spans_sheet (s : sheet) : Prop :=
  Forall (fun c => in_row c /\ 0 < width c /\ 0 - sprite_height s < pos_y c) (css s) /\
  ForallOrdPairs apart (css s).

(** The rule [r] is the rule of an image pasted on the canvas [c]. *)
Definition on_canvas (r : css_rule) (c : Canvas) : Prop :=
  exists im box, In (im, box) (pasted c) /\ filename im = cls r.

(** Only images placed so far are pasted on [c]; only they have rules. *)
Definition pasted_known (seen : list image) (c : Canvas) : Prop :=
  forall im box, In (im, box) (pasted c) -> In (filename im) (map filename seen).

Definition rules_known (seen : list image) (rules : list css_rule) : Prop :=
  forall r, In r rules -> In (cls r) (map filename seen).

(** All the rules of the images of [c] have the vertical position [y]. *)
Definition level (rules : list css_rule) (c : Canvas) (y : Z) : Prop :=
  forall r, In r rules -> on_canvas r c -> pos_y r = y.

(** The rules of the images of [c2] are lower than those of [c1], when
    the two are different canvases. *)
Definition below (rules : list css_rule) (c1 c2 : Canvas) : Prop :=
  c1 <> c2 ->
  forall r1 r2, In r1 rules -> In r2 rules ->
    on_canvas r1 c1 -> on_canvas r2 c2 -> pos_y r2 < pos_y r1.

(** What holds of the appended canvases [cs] when the running height is
    [h]: their rules are above [h], the rules of one canvas are level, and
    a different canvas that comes later in the list is lower. *)
Definition sealed_inv (seen : list image) (rules : list css_rule)
           (cs : list Canvas) (h : Z) : Prop :=
  rules_known seen rules /\
  Forall (pasted_known seen) cs /\
  Forall (fun c => forall r, In r rules -> on_canvas r c -> 0 - h < pos_y r) cs /\
  Forall (fun c => exists y, level rules c y) cs /\
  ForallOrdPairs (below rules) cs.

(** During the loop the rules of the current canvas are at the running
    height. *)
Definition offsets_row (seen : list image) (r : row) : Prop :=
  sealed_inv seen (r_css r) (r_canvases r) (r_height r) /\
  pasted_known seen (canvas r) /\
  level (r_css r) (canvas r) (0 - r_height r).

Definition offsets_sheet (seen : list image) (s : sheet) : Prop :=
  sealed_inv seen (css s) (canvases s) (sprite_height s).

(** Every rule is the rule of an image of some canvas of [cs]. *)
Definition housed (rules : list css_rule) (cs : list Canvas) : Prop :=
  forall r, In r rules -> exists c, In c cs /\ on_canvas r c.

Definition housed_row (r : row) : Prop :=
  housed (r_css r) (r_canvases r ++ [canvas r]).

(** During the loop only images placed so far are on the canvases. *)
Definition pasted_row (seen : list image) (r : row) : Prop :=
  Forall (pasted_known seen) (r_canvases r) /\ pasted_known seen (canvas r).

(** ** Vocabulary of the further properties *)

(** The canvases [after] are the canvases [before] followed by canvases
    made for the height [ch]. *)
Definition new_rows (ch : Z) (before after : list Canvas) : Prop :=
  exists rows, after = before ++ rows /\
               Forall (fun c => canvas_size c = (sprite_width, ch) /\
                                canvas_color c = transparent) rows.

(** The canvases get no lower from the top of the sprite to its bottom. *)
Definition ascending_heights (cs : list Canvas) : Prop :=
  StronglySorted (fun c1 c2 => canvas_height c1 <= canvas_height c2) cs.

(** During the loop over a size: the canvases appended since [before] and
    the current canvas are made for the height [ch]. *)
Definition shape_row (ch : Z) (before : list Canvas) (r : row) : Prop :=
  new_rows ch before (r_canvases r) /\
  canvas_size (canvas r) = (sprite_width, ch) /\
  canvas_color (canvas r) = transparent.

(** The images of [l] are pasted at row 0 side by side from column [x]:
    each one starts where the one before it ends. *)
Fixpoint tight (x : Z) (l : list (image * (Z * Z))) : Prop :=
  match l with
  | [] => True
  | (im, box) :: l' => box = (x, 0) /\ tight (x + fst (size im)) l'
  end.

(** The sum of the widths of the images pasted on a canvas. *)
Definition width_sum (l : list (image * (Z * Z))) : Z :=
  fold_right (fun p acc => fst (size (fst p)) + acc) 0 l.

(** The images of a canvas are side by side from column 0 and, when [v]
    holds, end at or before column 768. *)
Definition packed (v : Prop) (c : Canvas) : Prop :=
  tight 0 (pasted c) /\ (v -> width_sum (pasted c) <= sprite_width).

(** During the loop [x] is the column at which the images of the current
    canvas end. *)
Definition packed_row (v : Prop) (r : row) : Prop :=
  Forall (packed v) (r_canvases r) /\
  packed v (canvas r) /\
  x r = width_sum (pasted (canvas r)).

(** The rule [r] is the rule of the image [im], and [im] is pasted on a
    canvas of the list at the place the rule gives: column [0 - pos_x r]
    of a canvas as high as the image, above which the canvases of the
    list are [0 - pos_y r] high together. *)
Definition placed_at (cs : list Canvas) (im : image) (r : css_rule) : Prop :=
  r = rule_of im (pos_x r) (pos_y r) /\
  exists i c,
    nth_error cs i = Some c /\
    In (im, (0 - pos_x r, 0)) (pasted c) /\
    total_height (firstn i cs) = 0 - pos_y r /\
    canvas_height c = snd (size im).

(** During the loop the images placed so far and their rules correspond,
    the current canvas counting as the next canvas of the list. *)
Definition located_row (ch : Z) (seen : list image) (r : row) : Prop :=
  Forall2 (placed_at (r_canvases r ++ [canvas r])) seen (r_css r) /\
  heights_row ch r.

Definition located_sheet (seen : list image) (s : sheet) : Prop :=
  Forall2 (placed_at (canvases s)) seen (css s) /\ heights_sheet s.

(** The sum of the heights of the images of a list. *)
Definition sum_heights (images : list image) : Z :=
  fold_right (fun im acc => snd (size im) + acc) 0 images.

(** During the loop over a size that started with [n0] canvases: counting
    the current canvas once something is pasted on it, there are at most
    as many canvases more as images were placed. *)
Definition count_row (n0 : nat) (seen : list image) (r : row) : Prop :=
  (List.length (r_canvases r) + (if (0 <? x r)%Z then 1 else 0) <=
   n0 + List.length seen)%nat /\
  (seen <> [] -> 0 < x r) /\
  0 <= x r.

(** Every character of the string comes after the space in the order of
    the characters. *)
Fixpoint above_space (s : string) : Prop :=
  match s with
  | EmptyString => True
  | String c s' => Ascii.compare " " c = Lt /\ above_space s'
  end.

(** What follows the class name and the space in the text of a rule. *)
Definition css_tail (r : css_rule) : string :=
  ("{" ++ nl ++
   "  background-position: " ++ px (pos_x r) ++ " " ++ px (pos_y r) ++ ";" ++ nl ++
   "  width: " ++ px (width r) ++ ";" ++ nl ++
   "  height: " ++ px (height r) ++ ";" ++ nl ++ "}" ++ nl)%string.

(** Strictly ascending order of the class names. *)
Definition cls_lt (r1 r2 : css_rule) : Prop := String.ltb (cls r1) (cls r2) = true.

(** ** The names of the files *)

(** The [.split('.')[0]] of [os.path.basename(file).split('.')[0]], the
    name that the loop over the sprite directory stores on an image.
    [base] is the base name [os.path.basename(file)], taken as given:
    [basename] itself is not modelled, so [image_filename] is only to be
    applied to a base name, never to a path. *)
Definition image_filename (base : string) : string :=
  nth 0 (Py.split "." base) EmptyString.

(** The row of the sprite at which the image of a rule starts. *)
Definition rule_y (r : css_rule) : Z := 0 - pos_y r.

(** The rectangles of two rules have no pixel in common. *)
Definition disjoint_rules (r1 r2 : css_rule) : Prop :=
  rule_x r1 + width r1 <= rule_x r2 \/ rule_x r2 + width r2 <= rule_x r1 \/
  rule_y r1 + height r1 <= rule_y r2 \/ rule_y r2 + height r2 <= rule_y r1.

(** During the loop no appended canvas is empty, and neither is the
    current one once an image of the size was placed. *)
Definition filled_row (seen : list image) (r : row) : Prop :=
  Forall (fun c => pasted c <> []) (r_canvases r) /\
  (seen = [] /\ x r = 0 \/ pasted (canvas r) <> []).

(** * Facts about the built-ins *)

Section SortFacts.
Context {A K : Type} (key : A -> K) (leb : K -> K -> bool).

Lemma insert_perm (a : A) (l : list A) :
  Permutation (Py.insert key leb a l) (a :: l).
Proof.
  induction l as [|b l IH]; simpl; [reflexivity|].
  destruct (leb (key a) (key b)); [reflexivity|].
  rewrite IH. apply perm_swap.
Qed.

Lemma sort_perm (l : list A) : Permutation (Py.sort key leb l) l.
Proof.
  induction l as [|a l IH]; simpl; [constructor|].
  rewrite insert_perm. now constructor.
Qed.

Lemma sort_in (l : list A) (a : A) : In a (Py.sort key leb l) <-> In a l.
Proof.
  split; apply Permutation_in; [|symmetry]; apply sort_perm.
Qed.

Hypothesis leb_total : forall k1 k2, leb k1 k2 = true \/ leb k2 k1 = true.
Hypothesis leb_trans :
  forall k1 k2 k3, leb k1 k2 = true -> leb k2 k3 = true -> leb k1 k3 = true.

Lemma insert_sorted (a : A) (l : list A) :
  StronglySorted (key_le key leb) l -> StronglySorted (key_le key leb) (Py.insert key leb a l).
Proof.
  induction 1 as [|b l Hs IH Hb]; simpl.
  - repeat constructor.
  - destruct (leb (key a) (key b)) eqn:E.
    + constructor; [now constructor|].
      constructor; [exact E|].
      eapply Forall_impl; [|exact Hb].
      intros c Hc. unfold key_le in *. eauto.
    + constructor; [exact IH|].
      apply (Permutation_Forall (Permutation_sym (insert_perm a l))).
      constructor; [|exact Hb].
      destruct (leb_total (key a) (key b)) as [H|H]; [congruence|exact H].
Qed.

Lemma sort_sorted (l : list A) : StronglySorted (key_le key leb) (Py.sort key leb l).
Proof.
  induction l as [|a l IH]; simpl; [constructor|].
  now apply insert_sorted.
Qed.

(** Two sorted lists with the same elements are the same list as soon
    as no two elements compare both ways. *)
Lemma sorted_perm_eq (l1 l2 : list A) :
  (forall a b, In a l1 -> In b l1 -> (key_le key leb) a b -> (key_le key leb) b a -> a = b) ->
  StronglySorted (key_le key leb) l1 -> StronglySorted (key_le key leb) l2 ->
  Permutation l1 l2 -> l1 = l2.
Proof.
  revert l2. induction l1 as [|a l1 IH]; intros l2 Has S1 S2 P.
  - now apply Permutation_nil in P.
  - destruct l2 as [|b l2].
    + symmetry in P. now apply Permutation_nil in P.
    + apply StronglySorted_inv in S1 as [S1 F1].
      apply StronglySorted_inv in S2 as [S2 F2].
      rewrite Forall_forall in F1, F2.
      assert (Hab : a = b).
      { assert (Ia : In a (b :: l2)) by (eapply Permutation_in; [exact P|now left]).
        assert (Ib : In b (a :: l1))
          by (eapply Permutation_in; [symmetry; exact P|now left]).
        destruct Ia as [->|Ia]; [reflexivity|].
        destruct Ib as [->|Ib]; [reflexivity|].
        apply Has; [now left|now right|auto|auto]. }
      subst b. f_equal.
      apply IH; auto.
      * intros x y Hx Hy. apply Has; now right.
      * now apply Permutation_cons_inv in P.
Qed.

Hypothesis leb_antisym :
  forall k1 k2, leb k1 k2 = true -> leb k2 k1 = true -> k1 = k2.

Lemma NoDup_map_inj (l : list A) (a b : A) :
  NoDup (map key l) -> In a l -> In b l -> key a = key b -> a = b.
Proof.
  induction l as [|c l IH]; simpl; [easy|].
  intros N Ia Ib E. inversion N as [|? ? Hn N']; subst.
  destruct Ia as [->|Ia], Ib as [->|Ib]; auto.
  - exfalso. apply Hn. rewrite E. now apply in_map.
  - exfalso. apply Hn. rewrite <- E. now apply in_map.
Qed.

(** With pairwise distinct keys the sorted list does not depend on the
    order of the input. *)
Lemma sort_unique (l1 l2 : list A) :
  NoDup (map key l1) -> Permutation l1 l2 ->
  Py.sort key leb l1 = Py.sort key leb l2.
Proof.
  intros N P. apply sorted_perm_eq; try apply sort_sorted.
  - intros a b Ia Ib Hab Hba. rewrite sort_in in Ia, Ib.
    apply (NoDup_map_inj l1); auto.
  - rewrite !sort_perm. exact P.
Qed.
End SortFacts.

Lemma ascii_compare_trans (a b c : ascii) (o : comparison) :
  o <> Eq -> Ascii.compare a b = o -> Ascii.compare b c = o -> Ascii.compare a c = o.
Proof.
  unfold Ascii.compare. intros Ho H1 H2.
  destruct o; try congruence.
  - rewrite N.compare_lt_iff in *. lia.
  - rewrite N.compare_gt_iff in *. lia.
Qed.

Lemma string_compare_lt_trans (s1 s2 s3 : string) :
  String.compare s1 s2 = Lt -> String.compare s2 s3 = Lt -> String.compare s1 s3 = Lt.
Proof.
  revert s2 s3. induction s1 as [|a s1 IH]; intros [|b s2] [|c s3]; simpl; try easy.
  destruct (Ascii.compare a b) eqn:Eab; try easy;
    destruct (Ascii.compare b c) eqn:Ebc; try easy; intros H1 H2.
  - apply Ascii.compare_eq_iff in Eab, Ebc. subst.
    replace (Ascii.compare c c) with Eq; [eauto|].
    symmetry. unfold Ascii.compare. apply N.compare_refl.
  - apply Ascii.compare_eq_iff in Eab. subst. now rewrite Ebc.
  - apply Ascii.compare_eq_iff in Ebc. subst. now rewrite Eab.
  - now rewrite (ascii_compare_trans a b c Lt).
Qed.

Lemma string_leb_trans (s1 s2 s3 : string) :
  String.leb s1 s2 = true -> String.leb s2 s3 = true -> String.leb s1 s3 = true.
Proof.
  unfold String.leb.
  destruct (String.compare s1 s2) eqn:E12; try easy;
    destruct (String.compare s2 s3) eqn:E23; try easy; intros _ _.
  - apply String.compare_eq_iff in E12, E23. subst.
    destruct (String.compare s3 s3) eqn:E; try easy.
    pose proof (String.compare_antisym s3 s3) as H. rewrite E in H. discriminate.
  - apply String.compare_eq_iff in E12. subst. now rewrite E23.
  - apply String.compare_eq_iff in E23. subst. now rewrite E12.
  - now rewrite (string_compare_lt_trans s1 s2 s3).
Qed.

Lemma Z_leb_total (a b : Z) : (a <=? b) = true \/ (b <=? a) = true.
Proof. lia. Qed.

Lemma Z_leb_trans (a b c : Z) :
  (a <=? b) = true -> (b <=? c) = true -> (a <=? c) = true.
Proof. lia. Qed.

(** ** [str], [int] and [split] *)

Lemma split_no_char (c : ascii) (s : string) :
  no_char c s -> Py.split c s = [s].
Proof.
  induction s as [|a s IH]; simpl; [reflexivity|].
  intros [Ha Hs]. rewrite (IH Hs).
  destruct (Ascii.eqb_spec a c); [contradiction|reflexivity].
Qed.

Lemma split_app (c : ascii) (s1 s2 : string) :
  no_char c s1 -> Py.split c (s1 ++ String c s2) = s1 :: Py.split c s2.
Proof.
  induction s1 as [|a s1 IH]; simpl.
  - intros _. now rewrite Ascii.eqb_refl.
  - intros [Ha Hs]. rewrite (IH Hs).
    destruct (Ascii.eqb_spec a c); [contradiction|reflexivity].
Qed.

Lemma no_x_uint (d : Decimal.uint) : no_char "x" (NilEmpty.string_of_uint d).
Proof.
  induction d; simpl; try split; auto; discriminate.
Qed.

Lemma no_x_str (n : Z) : no_char "x" (Py.str n).
Proof.
  unfold Py.str. destruct (Z.to_int n) as [d|d]; simpl.
  - destruct d; simpl; try split; try apply no_x_uint; auto; discriminate.
  - split; [discriminate|].
    destruct d; simpl; try split; try apply no_x_uint; auto; discriminate.
Qed.

Lemma int_str (n : Z) : Py.int (Py.str n) = n.
Proof.
  unfold Py.int, Py.str. rewrite NilZero.isi.
  - apply DecimalZ.of_to.
  - destruct n; simpl; try discriminate.
    intros [= H]. now apply DecimalPos.Unsigned.to_uint_nonnil in H.
  - destruct n; simpl; try discriminate.
    intros [= H]. now apply DecimalPos.Unsigned.to_uint_nonnil in H.
Qed.

Lemma split_size_key (sz : Z * Z) :
  Py.split "x" (size_key sz) = [Py.str (fst sz); Py.str (snd sz)].
Proof.
  unfold size_key. cbn [String.append]. rewrite split_app by apply no_x_str.
  now rewrite split_no_char by apply no_x_str.
Qed.

(** The key determines the size it was made from. *)
Lemma key_size_size_key (sz : Z * Z) : key_size (size_key sz) = sz.
Proof.
  unfold key_size. rewrite split_size_key. simpl.
  rewrite !int_str. now destruct sz.
Qed.

Lemma key_height_size_key (sz : Z * Z) : key_height (size_key sz) = snd sz.
Proof.
  unfold key_height. rewrite split_size_key. simpl. apply int_str.
Qed.

(** * Facts about the dictionary *)

Lemma dict_get_append (m : images_dict) (k k' : string) (im : image) :
  dict_get (dict_append m k im) k' =
  if String.eqb k' k then dict_get m k' ++ [im] else dict_get m k'.
Proof.
  induction m as [|[k0 l] m IH]; simpl.
  - now destruct (String.eqb k' k).
  - destruct (String.eqb_spec k k0) as [->|Hk]; simpl.
    + now destruct (String.eqb k' k0).
    + rewrite IH. destruct (String.eqb_spec k' k0) as [->|Hk']; [|reflexivity].
      destruct (String.eqb_spec k0 k); [congruence|reflexivity].
Qed.

Lemma dict_keys_append (m : images_dict) (k k' : string) (im : image) :
  In k' (dict_keys (dict_append m k im)) <-> k' = k \/ In k' (dict_keys m).
Proof.
  induction m as [|[k0 l] m IH]; simpl.
  - intuition.
  - destruct (String.eqb_spec k k0) as [->|Hk]; simpl; [intuition|].
    rewrite IH. intuition.
Qed.

Lemma dict_keys_append_NoDup (m : images_dict) (k : string) (im : image) :
  NoDup (dict_keys m) -> NoDup (dict_keys (dict_append m k im)).
Proof.
  induction m as [|[k0 l] m IH]; simpl; intros N.
  - constructor; [easy|constructor].
  - inversion N as [|? ? Hn N']; subst.
    destruct (String.eqb_spec k k0) as [->|Hk]; simpl.
    + now constructor.
    + constructor; [|now apply IH].
      change (~ In k0 (dict_keys (dict_append m k im))).
      rewrite dict_keys_append. intros [E|I]; [congruence|contradiction].
Qed.

Lemma fold_dict_get (l : list image) (m : images_dict) (k : string) :
  dict_get (fold_left (fun m im => dict_append m (size_key (size im)) im) l m) k =
  dict_get m k ++ filter (has_key k) l.
Proof.
  revert m. induction l as [|im l IH]; intros m; simpl.
  - now rewrite app_nil_r.
  - rewrite IH, dict_get_append. unfold has_key.
    rewrite (String.eqb_sym (size_key (size im)) k).
    destruct (String.eqb k (size_key (size im))); [|reflexivity].
    now rewrite <- app_assoc.
Qed.

Lemma fold_dict_keys (l : list image) (m : images_dict) (k : string) :
  In k (dict_keys (fold_left (fun m im => dict_append m (size_key (size im)) im) l m)) <->
  In k (dict_keys m) \/ exists im, In im l /\ size_key (size im) = k.
Proof.
  revert m. induction l as [|im l IH]; intros m; simpl.
  - split; [auto|]. intros [H|(im & [] & _)]. exact H.
  - rewrite IH, dict_keys_append. split.
    + intros [[->|H]|(im' & I & E)]; eauto.
    + intros [H|(im' & [->|I] & E)]; eauto.
Qed.

Lemma fold_dict_keys_NoDup (l : list image) (m : images_dict) :
  NoDup (dict_keys m) ->
  NoDup (dict_keys (fold_left (fun m im => dict_append m (size_key (size im)) im) l m)).
Proof.
  revert m. induction l as [|im l IH]; intros m N; simpl; [exact N|].
  apply IH. now apply dict_keys_append_NoDup.
Qed.

(** The list kept under a key holds the images of that size, in the order
    of the list that was organised. *)
Lemma organize_get (l : list image) (k : string) :
  dict_get (organize l) k = filter (has_key k) l.
Proof. unfold organize. now rewrite fold_dict_get. Qed.

Lemma organize_keys (l : list image) (k : string) :
  In k (dict_keys (organize l)) <-> exists im, In im l /\ size_key (size im) = k.
Proof.
  unfold organize. rewrite fold_dict_keys. simpl. intuition.
Qed.

Lemma organize_keys_NoDup (l : list image) : NoDup (dict_keys (organize l)).
Proof. apply fold_dict_keys_NoDup. constructor. Qed.

Lemma sort_keys_in (m : images_dict) (k : string) :
  In k (sorted_keys m) <-> In k (dict_keys m).
Proof. apply sort_in. Qed.

Lemma sort_keys_NoDup (m : images_dict) :
  NoDup (dict_keys m) -> NoDup (sorted_keys m).
Proof.
  apply Permutation_NoDup. symmetry. apply sort_perm.
Qed.

Lemma filter_split_perm {A : Type} (p : A -> bool) (l : list A) :
  Permutation l (filter p l ++ filter (fun a => negb (p a)) l).
Proof.
  induction l as [|a l IH]; simpl; [constructor|].
  destruct (p a); simpl.
  - now constructor.
  - now apply Permutation_cons_app.
Qed.

Lemma filter_of_filter {A : Type} (p q : A -> bool) (l : list A) :
  (forall a, p a = true -> q a = true) ->
  filter p (filter q l) = filter p l.
Proof.
  intros H. induction l as [|a l IH]; simpl; [reflexivity|].
  destruct (q a) eqn:Q; simpl; rewrite IH; [reflexivity|].
  destruct (p a) eqn:P; [|reflexivity].
  apply H in P. congruence.
Qed.

(** Taking the lists of pairwise distinct keys that cover every image
    gives back all the images. *)
Lemma groups_perm (ks : list string) (l : list image) :
  NoDup ks ->
  (forall im, In im l -> In (size_key (size im)) ks) ->
  Permutation (List.concat (map (fun k => filter (has_key k) l) ks)) l.
Proof.
  revert l. induction ks as [|k ks IH]; intros l N C; simpl.
  - destruct l as [|im l]; [constructor|]. destruct (C im). now left.
  - inversion N as [|? ? Hk N']; subst.
    etransitivity; [|symmetry; apply (filter_split_perm (has_key k) l)].
    apply Permutation_app_head.
    etransitivity; [|apply (IH (filter (fun a => negb (has_key k a)) l) N')].
    + apply Permutation_refl'. f_equal. apply map_ext_in.
      intros k' Hk'. symmetry. apply filter_of_filter.
      intros im. unfold has_key.
      destruct (String.eqb_spec (size_key (size im)) k');
        destruct (String.eqb_spec (size_key (size im)) k); simpl; congruence.
    + intros im Him. apply filter_In in Him as [Him Hn].
      destruct (C im Him) as [E|I]; [|exact I].
      unfold has_key in Hn. rewrite <- E, String.eqb_refl in Hn. discriminate.
Qed.

Lemma placed_order_perm (images : list image) :
  Permutation (placed_order images) images.
Proof.
  unfold placed_order.
  rewrite (map_ext _ _ (organize_get (sort_images images))).
  rewrite groups_perm.
  - apply sort_perm.
  - apply sort_keys_NoDup, organize_keys_NoDup.
  - intros im Him. apply sort_keys_in, organize_keys. eauto.
Qed.

(** * Facts about one iteration *)

Lemma branch_of_spec (x w : Z) :
  match branch_of x w with
  | Fits => x + w < sprite_width
  | ExactFit => x + w = sprite_width
  | Overflow => x + w > sprite_width
  end.
Proof.
  unfold branch_of.
  destruct (Z.ltb_spec (x + w) sprite_width); [assumption|].
  destruct (Z.eqb_spec (x + w) sprite_width); [assumption|lia].
Qed.

Lemma place_Fits (ch : Z) (len : nat) (r : row) (index : nat) (im : image) :
  branch_of (x r) (fst (size im)) = Fits ->
  place ch len r (index, im) =
  {| r_css := r_css r ++ [rule_of im (0 - x r) (0 - r_height r)];
     r_canvases := r_canvases r;
     r_height := r_height r;
     canvas := paste (canvas r) im (x r, 0);
     x := x r + fst (size im) |}.
Proof.
  unfold place, rule_of. destruct (size im) as [w h]. simpl. now intros ->.
Qed.

Lemma place_ExactFit_last (ch : Z) (len : nat) (r : row) (index : nat) (im : image) :
  branch_of (x r) (fst (size im)) = ExactFit -> is_last len index ->
  place ch len r (index, im) =
  {| r_css := r_css r ++ [rule_of im (0 - x r) (0 - r_height r)];
     r_canvases := r_canvases r ++ [paste (canvas r) im (x r, 0)];
     r_height := r_height r + ch;
     canvas := paste (canvas r) im (x r, 0);
     x := x r |}.
Proof.
  unfold place, rule_of, is_last. destruct (size im) as [w h]. simpl.
  intros -> L. now destruct (Z.eqb_spec (Z.of_nat index) (Z.of_nat len - 1)).
Qed.

Lemma place_ExactFit_more (ch : Z) (len : nat) (r : row) (index : nat) (im : image) :
  branch_of (x r) (fst (size im)) = ExactFit -> ~ is_last len index ->
  place ch len r (index, im) =
  {| r_css := r_css r ++ [rule_of im (0 - x r) (0 - r_height r)];
     r_canvases := r_canvases r;
     r_height := r_height r;
     canvas := paste (canvas r) im (x r, 0);
     x := x r + fst (size im) |}.
Proof.
  unfold place, rule_of, is_last. destruct (size im) as [w h]. simpl.
  intros -> L. now destruct (Z.eqb_spec (Z.of_nat index) (Z.of_nat len - 1)).
Qed.

Lemma place_Overflow (ch : Z) (len : nat) (r : row) (index : nat) (im : image) :
  branch_of (x r) (fst (size im)) = Overflow ->
  place ch len r (index, im) =
  {| r_css := r_css r ++ [rule_of im 0 (0 - (r_height r + ch))];
     r_canvases := r_canvases r ++ [canvas r];
     r_height := r_height r + ch;
     canvas := paste (Image_new (sprite_width, ch) transparent) im (0, 0);
     x := fst (size im) |}.
Proof.
  unfold place, rule_of. destruct (size im) as [w h]. simpl. now intros ->.
Qed.

Lemma is_last_dec (len index : nat) : {is_last len index} + {~ is_last len index}.
Proof. unfold is_last. apply Z.eq_dec. Qed.

(** Case analysis on an iteration: rewrites [place ch len r (index, im)]
    by the equation of the branch taken. *)
Ltac place_cases ch len r index im :=
  let B := fresh "B" in
  let L := fresh "L" in
  pose proof (branch_of_spec (x r) (fst (size im))) as B;
  destruct (branch_of (x r) (fst (size im))) eqn:?;
  [ rewrite (place_Fits ch len r index im) by assumption
  | destruct (is_last_dec len index) as [L|L];
    [ rewrite (place_ExactFit_last ch len r index im) by assumption
    | rewrite (place_ExactFit_more ch len r index im) by assumption ]
  | rewrite (place_Overflow ch len r index im) by assumption ].

(** ** The loop over one size *)

Lemma enumerate_from_app {A : Type} (i : nat) (l1 l2 : list A) :
  Py.enumerate_from i (l1 ++ l2) =
  Py.enumerate_from i l1 ++ Py.enumerate_from (i + List.length l1) l2.
Proof.
  revert i. induction l1 as [|a l1 IH]; intros i; simpl.
  - now rewrite Nat.add_0_r.
  - rewrite IH. now rewrite Nat.add_succ_r.
Qed.

Lemma pack_images_snoc (ch : Z) (front : list image) (last : image) (r : row) :
  pack_images ch (front ++ [last]) r =
  place ch (S (List.length front))
    (pack_front ch (S (List.length front)) front r) (List.length front, last).
Proof.
  unfold pack_images, pack_front, Py.enumerate.
  rewrite enumerate_from_app, fold_left_app, length_app. simpl.
  now rewrite Nat.add_1_r.
Qed.

Lemma last_is_last (n : nat) : is_last (S n) n.
Proof. unfold is_last. lia. Qed.

Lemma all_ok_Forall (ok : image -> Prop) (seen l : list image) :
  Forall ok l -> all_ok (fun _ => ok) seen l.
Proof.
  revert seen. induction l as [|im l IH]; intros seen H; simpl; [exact I|].
  inversion H; subst. auto.
Qed.

Lemma all_ok_app (ok : list image -> image -> Prop) (seen l1 l2 : list image) :
  all_ok ok seen (l1 ++ l2) <-> all_ok ok seen l1 /\ all_ok ok (seen ++ l1) l2.
Proof.
  revert seen. induction l1 as [|im l1 IH]; intros seen; simpl.
  - rewrite app_nil_r. tauto.
  - rewrite IH, <- app_assoc. simpl. tauto.
Qed.

Lemma all_ok_fresh (seen l : list image) :
  NoDup (map filename (seen ++ l)) -> all_ok fresh seen l.
Proof.
  revert seen. induction l as [|im l IH]; intros seen N; simpl; [exact I|].
  split.
  - rewrite map_app in N. simpl in N. apply NoDup_remove_2 in N.
    unfold fresh. intros H. apply N. apply in_or_app. now left.
  - apply IH. now rewrite <- app_assoc.
Qed.

(** A property kept by every iteration that is not the last one holds
    after the iterations over [front]; the property may depend on the
    images placed so far. *)
Lemma fold_front_inv (ch : Z) (len : nat) (I : list image -> row -> Prop)
      (ok : list image -> image -> Prop) :
  (forall seen r index im, ~ is_last len index -> ok seen im -> I seen r ->
     I (seen ++ [im]) (place ch len r (index, im))) ->
  forall front i seen r,
    (i + List.length front < len)%nat -> all_ok ok seen front -> I seen r ->
    I (seen ++ front) (fold_left (place ch len) (Py.enumerate_from i front) r).
Proof.
  intros Hstep. induction front as [|im front IH]; intros i seen r Hlen Hok Hr; simpl.
  - now rewrite app_nil_r.
  - destruct Hok as [Hok1 Hok2]. simpl in Hlen.
    replace (seen ++ im :: front) with ((seen ++ [im]) ++ front)
      by now rewrite <- app_assoc.
    apply IH; [lia|assumption|].
    apply Hstep; auto. unfold is_last. lia.
Qed.

Lemma pack_front_inv (ch : Z) (I : list image -> row -> Prop)
      (ok : list image -> image -> Prop)
      (front : list image) (seen : list image) (r : row) :
  (forall seen r index im, ~ is_last (S (List.length front)) index -> ok seen im ->
     I seen r -> I (seen ++ [im]) (place ch (S (List.length front)) r (index, im))) ->
  all_ok ok seen front -> I seen r ->
  I (seen ++ front) (pack_front ch (S (List.length front)) front r).
Proof.
  intros Hstep Hok Hr. unfold pack_front, Py.enumerate.
  apply (fold_front_inv ch _ I ok Hstep); auto.
Qed.

(** A property kept by every iteration holds after the whole loop. *)
Lemma pack_images_inv (ch : Z) (I : list image -> row -> Prop)
      (ok : list image -> image -> Prop)
      (group : list image) (seen : list image) (r : row) :
  (forall len seen r index im, ok seen im -> I seen r ->
     I (seen ++ [im]) (place ch len r (index, im))) ->
  all_ok ok seen group -> I seen r ->
  I (seen ++ group) (pack_images ch group r).
Proof.
  intros Hstep. unfold pack_images, Py.enumerate.
  generalize (List.length group) as len. generalize 0%nat as i.
  revert seen r. induction group as [|im group IH]; intros seen r i len Hok Hr; simpl.
  - now rewrite app_nil_r.
  - destruct Hok as [Hok1 Hok2].
    replace (seen ++ im :: group) with ((seen ++ [im]) ++ group)
      by now rewrite <- app_assoc.
    apply IH; [assumption|]. now apply Hstep.
Qed.

(** ** Heights *)

Lemma total_height_app (cs1 cs2 : list Canvas) :
  total_height (cs1 ++ cs2) = total_height cs1 + total_height cs2.
Proof.
  induction cs1 as [|c cs1 IH]; simpl; [reflexivity|]. rewrite IH. lia.
Qed.

Lemma place_heights (ch : Z) (len : nat) (r : row) (index : nat) (im : image) :
  heights_row ch r -> heights_row ch (place ch len r (index, im)).
Proof.
  unfold heights_row. intros [Hh Hc].
  place_cases ch len r index im; simpl;
    rewrite ?total_height_app; simpl; unfold canvas_height in *; simpl; lia.
Qed.

Lemma pack_key_heights (m : images_dict) (s : sheet) (key : string) :
  heights_sheet s -> heights_sheet (pack_key m s key).
Proof.
  unfold pack_key, heights_sheet. destruct (key_size key) as [cw ch]. intros Hs.
  assert (H : heights_row ch (pack_images ch (dict_get m key) (start_row ch s))).
  { apply (pack_images_inv ch (fun _ => heights_row ch) (fun _ _ => True)
             (dict_get m key) []).
    - intros. now apply place_heights.
    - apply all_ok_Forall, Forall_forall. auto.
    - split; [exact Hs|reflexivity]. }
  destruct H as [Hh Hc]. unfold append_last_row.
  destruct (x _ <? sprite_width); simpl; [|exact Hh].
  rewrite total_height_app. simpl. lia.
Qed.

Lemma pack_keys_heights (m : images_dict) (keys : list string) (s : sheet) :
  heights_sheet s -> heights_sheet (fold_left (pack_key m) keys s).
Proof.
  revert s. induction keys as [|k keys IH]; intros s Hs; simpl; [exact Hs|].
  now apply IH, pack_key_heights.
Qed.

Lemma pack_heights (images : list image) : heights_sheet (pack images).
Proof. apply pack_keys_heights. reflexivity. Qed.

(** ** The compositor *)

Lemma fold_compose (cs : list Canvas) (sp : Sprite) (y : Z) :
  fold_left compose_step cs (sp, y) =
  ({| sprite_size := sprite_size sp; sprite_color := sprite_color sp;
      blits := blits sp ++ stack y cs |}, y + total_height cs).
Proof.
  revert sp y. induction cs as [|c cs IH]; intros sp y; simpl.
  - rewrite app_nil_r, Z.add_0_r. now destruct sp.
  - rewrite IH. simpl. rewrite <- app_assoc. simpl.
    f_equal. unfold canvas_height. lia.
Qed.

Lemma compose_eq (s : sheet) :
  compose s = {| sprite_size := (sprite_width, sprite_height s);
                 sprite_color := transparent;
                 blits := stack 0 (canvases s) |}.
Proof. unfold compose. now rewrite fold_compose. Qed.

Lemma stack_fst (y : Z) (cs : list Canvas) : map fst (stack y cs) = cs.
Proof.
  revert y. induction cs as [|c cs IH]; intros y; simpl; [reflexivity|].
  now rewrite IH.
Qed.

Lemma stack_nth (cs : list Canvas) (y : Z) (i : nat) (c : Canvas) (box : Z * Z) :
  nth_error (stack y cs) i = Some (c, box) ->
  nth_error cs i = Some c /\ box = (0, y + total_height (firstn i cs)).
Proof.
  revert y i. induction cs as [|c0 cs IH]; intros y i; simpl.
  - now destruct i.
  - destruct i as [|i]; simpl.
    + intros [= <- <-]. split; [reflexivity|]. f_equal. lia.
    + intros H. apply IH in H as [H1 ->]. split; [exact H1|]. f_equal. lia.
Qed.

(** ** One rule per image *)

Lemma place_info (ch : Z) (len : nat) (r : row) (index : nat) (im : image) :
  map rule_info (r_css (place ch len r (index, im))) =
  map rule_info (r_css r) ++ [image_info im].
Proof.
  place_cases ch len r index im; simpl; rewrite map_app; simpl;
    unfold rule_info, image_info; simpl; now destruct (size im).
Qed.

Lemma append_last_row_css (ch : Z) (r : row) : css (append_last_row ch r) = r_css r.
Proof. unfold append_last_row. now destruct (x r <? sprite_width). Qed.

Lemma pack_key_info (m : images_dict) (s : sheet) (key : string) :
  map rule_info (css (pack_key m s key)) =
  map rule_info (css s) ++ map image_info (dict_get m key).
Proof.
  unfold pack_key. destruct (key_size key) as [cw ch].
  rewrite append_last_row_css.
  apply (pack_images_inv ch
           (fun seen r => map rule_info (r_css r) =
                          map rule_info (css s) ++ map image_info seen)
           (fun _ _ => True) (dict_get m key) []).
  - intros len seen r index im _ H.
    now rewrite place_info, H, map_app, <- app_assoc.
  - apply all_ok_Forall, Forall_forall. auto.
  - simpl. now rewrite app_nil_r.
Qed.

Lemma pack_keys_info (m : images_dict) (keys : list string) (s : sheet) :
  map rule_info (css (fold_left (pack_key m) keys s)) =
  map rule_info (css s) ++ map image_info (List.concat (map (dict_get m) keys)).
Proof.
  revert s. induction keys as [|k keys IH]; intros s; simpl.
  - now rewrite app_nil_r.
  - now rewrite IH, pack_key_info, map_app, <- app_assoc.
Qed.

Lemma pack_info (images : list image) :
  map rule_info (css (pack images)) = map image_info (placed_order images).
Proof. unfold pack. now rewrite pack_keys_info. Qed.

Lemma sort_css_perm (l : list css_rule) : Permutation (sort_css l) l.
Proof. apply sort_perm. Qed.

Lemma init_nonempty (d : string) (images : list image) :
  images <> [] ->
  SpriteCreator_init d images =
  Created (compose (pack images)) (sort_css (css (pack images))).
Proof.
  unfold SpriteCreator_init. destruct images as [|im images]; [easy|].
  intros _. destruct (Z.leb_spec (Z.of_nat (List.length (im :: images))) 0) as [H|H];
    [simpl in H; lia|reflexivity].
Qed.

Lemma init_created (d : string) (images : list image) (sp : Sprite)
      (style : list css_rule) :
  SpriteCreator_init d images = Created sp style ->
  images <> [] /\ sp = compose (pack images) /\ style = sort_css (css (pack images)).
Proof.
  destruct images as [|im images]; [discriminate|].
  rewrite init_nonempty by easy. intros [= <- <-]. easy.
Qed.

(** * The properties *)

(** ** The scenarios of the specification *)

(** C1 (what the code does on the three images of the third scenario):
    the second 384-pixel image fills the row exactly and is the last of
    its size, the exact-fit branch appends the canvas, and the "append
    last row" test that follows the loop appends the same canvas once
    more because [x] was left at 384; the sprite height is then 100 when
    the 10-pixel image is placed, whose rule therefore gets the vertical
    position -100, not -50, and the sheet holds the row of the first two
    images twice. *)
Theorem exact_fit_last_row_is_appended_twice :
  let a := img "a" 384 50 in
  let b := img "b" 384 50 in
  let c := img "c" 10 50 in
  let row_ab := {| canvas_size := (768, 50); canvas_color := transparent;
                   pasted := [(a, (0, 0)); (b, (384, 0))] |} in
  let row_c := {| canvas_size := (768, 50); canvas_color := transparent;
                  pasted := [(c, (0, 0))] |} in
  pack [a; b; c] =
  {| css := [rule_of a 0 0; rule_of b (-384) 0; rule_of c 0 (-100)];
     canvases := [row_ab; row_ab; row_c];
     sprite_height := 150 |} /\
  SpriteCreator_init "sprites" [a; b; c] =
  Created {| sprite_size := (768, 150); sprite_color := transparent;
             blits := [(row_ab, (0, 0)); (row_ab, (0, 50)); (row_c, (0, 100))] |}
          [rule_of a 0 0; rule_of b (-384) 0; rule_of c 0 (-100)] /\
  px (pos_y (rule_of c 0 (-100))) = "-100px"%string.
Proof. vm_compute. repeat split. Qed.

(** The same in general: whenever the last image of a size fills its row
    exactly, the loop and the test after it append the canvas twice. *)
Lemma exact_fit_last_appends_twice (m : images_dict) (s : sheet) (key : string)
      (front : list image) (last : image) :
  dict_get m key = front ++ [last] ->
  let ch := snd (key_size key) in
  let r := pack_front ch (S (List.length front)) front (start_row ch s) in
  branch_of (x r) (fst (size last)) = ExactFit ->
  0 < fst (size last) ->
  let c := paste (canvas r) last (x r, 0) in
  canvases (pack_key m s key) = r_canvases r ++ [c; c] /\
  sprite_height (pack_key m s key) = r_height r + ch + ch.
Proof.
  intros Hg ch r HB Hw c. unfold pack_key.
  destruct (key_size key) as [cw ch'] eqn:K. simpl in ch. subst ch.
  rewrite Hg, pack_images_snoc. fold r.
  rewrite place_ExactFit_last by (auto using last_is_last).
  pose proof (branch_of_spec (x r) (fst (size last))) as S. rewrite HB in S.
  unfold append_last_row. simpl.
  destruct (Z.ltb_spec (x r) sprite_width); [|lia]. simpl.
  now rewrite <- app_assoc.
Qed.

(** C3 (as the code has it): on an empty directory the constructor logs a
    warning and returns; no exception is raised, and neither a sprite
    image nor a style sheet is made. *)
Theorem empty_input_is_skipped (sprite_dir : string) :
  SpriteCreator_init sprite_dir [] =
  Skipped ("No images found in " ++ sprite_dir ++
           ". Skipping creation of sprite sheet.")%string.
Proof. reflexivity. Qed.

(** C3 (the claim fails): the empty input does not end in
    [EmptyInputError]. *)
Lemma empty_input_raises_nothing :
  SpriteCreator_init "sprites" [] <> Raised "EmptyInputError".
Proof. discriminate. Qed.

(** C2 (the claim fails): an image 800 pixels wide is not rejected; its
    rule is emitted and a sprite image is made. *)
Lemma oversized_image_is_not_rejected :
  let wide := img "wide" 800 50 in
  SpriteCreator_init "sprites" [wide] <> Raised "OversizedImageError" /\
  SpriteCreator_init "sprites" [wide] =
  Created {| sprite_size := (768, 50); sprite_color := transparent;
             blits := [(Image_new (768, 50) transparent, (0, 0))] |}
          [rule_of wide 0 (-50)].
Proof. split; [discriminate|vm_compute; reflexivity]. Qed.

(** C2 (as the code has it): no width is rejected.  Every nonempty input,
    whatever the widths of its images, ends with a sprite image and a
    style sheet that holds exactly one rule per image, with the name and
    the size of that image. *)
Theorem every_image_gets_a_rule (sprite_dir : string) (images : list image) :
  images <> [] ->
  exists sp style,
    SpriteCreator_init sprite_dir images = Created sp style /\
    Permutation (map rule_info style) (map image_info images).
Proof.
  intros H. rewrite init_nonempty by assumption.
  eexists _, _. split; [reflexivity|].
  rewrite sort_css_perm, pack_info. apply Permutation_map, placed_order_perm.
Qed.

Lemma every_image_gets_a_rule_witness :
  exists sp style,
    SpriteCreator_init "sprites" [img "wide" 800 50; img "full" 768 50] =
    Created sp style /\
    Permutation (map rule_info style)
      (map image_info [img "wide" 800 50; img "full" 768 50]).
Proof.
  apply (every_image_gets_a_rule "sprites" [img "wide" 800 50; img "full" 768 50]).
  discriminate.
Defined.

(** C4: when an image fills the row exactly and more images of its size
    follow, [x] is advanced by the width of the image, which leaves it at
    768; the next image, whatever its (positive) width, then takes the
    overflow branch: the canvas is appended and the image goes to a new
    canvas at 0. *)
Theorem exact_fit_not_last_forces_overflow (ch : Z) (len : nat) (r : row)
        (index : nat) (im : image) :
  branch_of (x r) (fst (size im)) = ExactFit ->
  ~ is_last len index ->
  let r' := place ch len r (index, im) in
  x r' = x r + fst (size im) /\
  x r' = sprite_width /\
  forall (index' : nat) (im' : image),
    0 < fst (size im') ->
    branch_of (x r') (fst (size im')) = Overflow /\
    let r'' := place ch len r' (index', im') in
    r_canvases r'' = r_canvases r' ++ [canvas r'] /\
    canvas r'' = paste (Image_new (sprite_width, ch) transparent) im' (0, 0) /\
    x r'' = fst (size im').
Proof.
  intros HB HL r'.
  pose proof (branch_of_spec (x r) (fst (size im))) as S. rewrite HB in S.
  assert (Hx : x r' = x r + fst (size im)).
  { subst r'. now rewrite place_ExactFit_more by assumption. }
  split; [exact Hx|]. split; [lia|].
  intros index' im' Hw.
  assert (HO : branch_of (x r') (fst (size im')) = Overflow).
  { unfold branch_of. rewrite Hx.
    destruct (Z.ltb_spec (x r + fst (size im) + fst (size im')) sprite_width); [lia|].
    destruct (Z.eqb_spec (x r + fst (size im) + fst (size im')) sprite_width);
      [lia|reflexivity]. }
  split; [exact HO|].
  intros r''. subst r''. rewrite place_Overflow by exact HO. simpl. auto.
Qed.

(** The width of the next image has to be positive for that: an image of
    width 0 would fill the row exactly once more. *)
Lemma exact_fit_then_zero_width : branch_of sprite_width 0 = ExactFit.
Proof. reflexivity. Qed.

Lemma exact_fit_not_last_forces_overflow_witness :
  let r := pack_front 50 3 [img "a" 384 50] (start_row 50 empty_sheet) in
  let r' := place 50 3 r (1%nat, img "b" 384 50) in
  x r' = sprite_width /\
  branch_of (x r') (fst (size (img "c" 384 50))) = Overflow.
Proof.
  intros r r'.
  destruct (exact_fit_not_last_forces_overflow 50 3 r 1 (img "b" 384 50))
    as (_ & H1 & H2).
  - reflexivity.
  - unfold is_last. simpl. lia.
  - split; [exact H1|].
    apply (H2 2%nat (img "c" 384 50)). simpl. lia.
Defined.

(** C5: in the overflow branch the canvas is appended and the sprite
    height advanced first, and the rule of the image carries the advanced
    height.  For two images "a" and "b" of 700 by 50, in either order of
    enumeration, "a" is at 0 0 on the first canvas, "b" at 0 -50px on a
    second one, and the sprite image is 100 pixels high. *)
Theorem overflow_seals_before_placing :
  (forall (ch : Z) (len : nat) (r : row) (index : nat) (im : image),
     branch_of (x r) (fst (size im)) = Overflow ->
     let r' := place ch len r (index, im) in
     r_canvases r' = r_canvases r ++ [canvas r] /\
     r_height r' = r_height r + ch /\
     r_css r' = r_css r ++ [rule_of im 0 (0 - (r_height r + ch))] /\
     canvas r' = paste (Image_new (sprite_width, ch) transparent) im (0, 0) /\
     x r' = fst (size im)) /\
  (forall (sprite_dir : string) (pa pb : list rgba) (images : list image),
     let a := {| filename := "a"; size := (700, 50); pixels := pa |} in
     let b := {| filename := "b"; size := (700, 50); pixels := pb |} in
     Permutation [a; b] images ->
     SpriteCreator_init sprite_dir images =
     Created
       {| sprite_size := (768, 100); sprite_color := transparent;
          blits := [(paste (Image_new (768, 50) transparent) a (0, 0), (0, 0));
                    (paste (Image_new (768, 50) transparent) b (0, 0), (0, 50))] |}
       [rule_of a 0 0; rule_of b 0 (-50)]).
Proof.
  split.
  - intros ch len r index im HB r'. subst r'.
    rewrite place_Overflow by assumption. simpl. auto.
  - intros d pa pb images a b P.
    apply Permutation_length_2_inv in P as [-> | ->]; vm_compute; reflexivity.
Qed.

Lemma overflow_seals_before_placing_witness :
  let r := pack_front 50 2 [img "a" 700 50] (start_row 50 empty_sheet) in
  r_height (place 50 2 r (1%nat, img "b" 700 50)) = 50 /\
  SpriteCreator_init "sprites" [img "b" 700 50; img "a" 700 50] =
  Created
    {| sprite_size := (768, 100); sprite_color := transparent;
       blits := [(paste (Image_new (768, 50) transparent) (img "a" 700 50) (0, 0),
                  (0, 0));
                 (paste (Image_new (768, 50) transparent) (img "b" 700 50) (0, 0),
                  (0, 50))] |}
    [rule_of (img "a" 700 50) 0 0; rule_of (img "b" 700 50) 0 (-50)].
Proof.
  intros r. destruct overflow_seals_before_placing as [H1 H2]. split.
  - destruct (H1 50 2%nat r 1%nat (img "b" 700 50)) as (_ & H & _);
      [reflexivity|exact H].
  - apply (H2 "sprites"%string [] [] [img "b" 700 50; img "a" 700 50]).
    apply perm_swap.
Defined.

(** C9: the height of the sprite image is the sum of the heights of the
    canvases of the list, the image is transparent and 768 pixels wide,
    and the canvases are pasted in the order of the list, each at the
    height that is the sum of the heights of those before it. *)
Theorem sprite_stacks_the_canvases (sprite_dir : string) (images : list image)
        (sp : Sprite) (style : list css_rule) :
  SpriteCreator_init sprite_dir images = Created sp style ->
  let cs := canvases (pack images) in
  sprite_height (pack images) = total_height cs /\
  sprite_size sp = (sprite_width, total_height cs) /\
  sprite_color sp = transparent /\
  map fst (blits sp) = cs /\
  forall (i : nat) (c : Canvas) (box : Z * Z),
    nth_error (blits sp) i = Some (c, box) ->
    nth_error cs i = Some c /\ box = (0, total_height (firstn i cs)).
Proof.
  intros H cs. apply init_created in H as (_ & -> & _).
  rewrite compose_eq. simpl. fold cs.
  pose proof (pack_heights images) as Hh. unfold heights_sheet in Hh. fold cs in Hh.
  rewrite Hh. repeat split; try apply stack_fst.
  - now apply stack_nth in H.
  - now apply stack_nth in H.
Qed.

Lemma sprite_stacks_the_canvases_witness :
  let images := [img "a" 384 50; img "b" 384 50; img "c" 10 40] in
  let cs := canvases (pack images) in
  sprite_height (pack images) = total_height cs /\
  sprite_size (compose (pack images)) = (sprite_width, total_height cs).
Proof.
  intros images cs.
  destruct (sprite_stacks_the_canvases "sprites" images (compose (pack images))
              (sort_css (css (pack images))) eq_refl) as (H1 & H2 & _).
  split; [exact H1|exact H2].
Defined.

(** ** The order of enumeration *)

Lemma sort_images_unique (l1 l2 : list image) :
  NoDup (map filename l1) -> Permutation l1 l2 -> sort_images l1 = sort_images l2.
Proof.
  apply sort_unique.
  - apply String.leb_total.
  - apply string_leb_trans.
  - apply String.leb_antisym.
Qed.

Lemma StronglySorted_filter {A : Type} (R : A -> A -> Prop) (p : A -> bool)
      (l : list A) :
  StronglySorted R l -> StronglySorted R (filter p l).
Proof.
  induction 1 as [|a l Hs IH Ha]; simpl; [constructor|].
  destruct (p a); [|exact IH].
  constructor; [exact IH|].
  rewrite Forall_forall in *. intros b Hb. apply filter_In in Hb as [Hb _]. auto.
Qed.

Lemma StronglySorted_strict {A : Type} (R S : A -> A -> Prop) (l : list A) :
  (forall a b, In a l -> In b l -> R a b -> a <> b -> S a b) ->
  NoDup l -> StronglySorted R l -> StronglySorted S l.
Proof.
  intros H N Hs. induction Hs as [|a l Hs IH Ha]; [constructor|].
  inversion N as [|? ? Hn N']; subst.
  constructor.
  - apply IH; [|exact N']. intros b c Hb Hc. apply H; now right.
  - rewrite Forall_forall in *. intros b Hb.
    apply H; [now left|now right|auto|]. intros ->. contradiction.
Qed.

Lemma sort_images_ascending (images : list image) :
  NoDup (map filename images) -> StronglySorted name_lt (sort_images images).
Proof.
  intros N.
  assert (N' : NoDup (map filename (sort_images images))).
  { eapply Permutation_NoDup; [|exact N].
    apply Permutation_map. symmetry. apply sort_perm. }
  apply (StronglySorted_strict (key_le filename String.leb)).
  - intros a b Ia Ib Hab Hne. unfold key_le, String.leb in Hab. unfold name_lt, String.ltb.
    destruct (String.compare (filename a) (filename b)) eqn:E; try easy.
    apply String.compare_eq_iff in E. exfalso. apply Hne.
    apply (NoDup_map_inj filename (sort_images images)); auto.
  - eapply NoDup_map_inv. exact N'.
  - apply sort_sorted; [apply String.leb_total|apply string_leb_trans].
Qed.

Lemma StronglySorted_impl {A : Type} (R S : A -> A -> Prop) (l : list A) :
  (forall a b, R a b -> S a b) -> StronglySorted R l -> StronglySorted S l.
Proof.
  intros H. induction 1 as [|a l Hs IH Ha]; constructor; auto.
  eapply Forall_impl; [|exact Ha]. auto.
Qed.

Lemma sort_keys_ascending (m : images_dict) :
  StronglySorted (fun k1 k2 => key_height k1 <= key_height k2) (sorted_keys m).
Proof.
  apply (StronglySorted_impl (key_le key_height Z.leb)).
  - intros a b H. unfold key_le in H. lia.
  - apply sort_sorted; [apply Z_leb_total|apply Z_leb_trans].
Qed.

Lemma pack_perm (l1 l2 : list image) :
  NoDup (map filename l1) -> Permutation l1 l2 -> pack l1 = pack l2.
Proof.
  intros N P. unfold pack. now rewrite (sort_images_unique l1 l2 N P).
Qed.

(** C8: with pairwise distinct file names, the outcome does not depend on
    the order in which the images are enumerated: the images of a size are
    placed in ascending order of their names, and the sizes are taken in
    ascending order of their heights. *)
Theorem packing_ignores_input_order (sprite_dir : string) (l1 l2 : list image) :
  NoDup (map filename l1) -> Permutation l1 l2 ->
  SpriteCreator_init sprite_dir l1 = SpriteCreator_init sprite_dir l2 /\
  (let m := organize (sort_images l2) in
   (forall key, StronglySorted name_lt (dict_get m key)) /\
   (forall key im, In key (sorted_keys m) -> In im (dict_get m key) ->
      In im l2 /\ size_key (size im) = key /\ key_height key = snd (size im)) /\
   StronglySorted (fun k1 k2 => key_height k1 <= key_height k2) (sorted_keys m)).
Proof.
  intros N P. split; [|split; [|split]].
  - unfold SpriteCreator_init.
    rewrite (Permutation_length P), (pack_perm l1 l2 N P). reflexivity.
  - intros key. rewrite organize_get. apply StronglySorted_filter.
    apply sort_images_ascending.
    eapply Permutation_NoDup; [|exact N]. now apply Permutation_map.
  - intros key im _ Him. rewrite organize_get in Him.
    apply filter_In in Him as [Him Hk]. unfold has_key in Hk.
    apply String.eqb_eq in Hk. split; [|split].
    + unfold sort_images in Him. now rewrite sort_in in Him.
    + exact Hk.
    + rewrite <- Hk. apply key_height_size_key.
  - apply sort_keys_ascending.
Qed.

(** The names have to be distinct for that: the sort by name keeps two
    images of the same name in the order of enumeration, and with it the
    order of their sizes in the dictionary. *)
Lemma same_name_order_matters :
  pack [img "a" 10 50; img "a" 20 50] <> pack [img "a" 20 50; img "a" 10 50].
Proof. vm_compute. discriminate. Qed.

Lemma packing_ignores_input_order_witness :
  SpriteCreator_init "sprites" [img "a" 384 50; img "b" 384 50; img "c" 10 40] =
  SpriteCreator_init "sprites" [img "c" 10 40; img "b" 384 50; img "a" 384 50].
Proof.
  apply (packing_ignores_input_order "sprites"
           [img "a" 384 50; img "b" 384 50; img "c" 10 40]
           [img "c" 10 40; img "b" 384 50; img "a" 384 50]).
  - simpl. repeat constructor; simpl; intuition discriminate.
  - apply Permutation_rev with (l := [img "a" 384 50; img "b" 384 50; img "c" 10 40]).
Defined.

(** ** Horizontal spans *)

Lemma FOP_snoc {A : Type} (R : A -> A -> Prop) (l : list A) (b : A) :
  ForallOrdPairs R (l ++ [b]) <-> ForallOrdPairs R l /\ Forall (fun a => R a b) l.
Proof.
  induction l as [|a l IH]; simpl.
  - split; [intros _; split; constructor|intros _; repeat constructor].
  - split.
    + intros H. inversion H as [|? ? Ha Hl]; subst.
      apply IH in Hl as [Hl Hb]. apply Forall_app in Ha as [Ha Hab].
      inversion Hab; subst. split; constructor; auto.
    + intros [H Hb]. inversion H as [|? ? Ha Hl]; subst.
      inversion Hb; subst. constructor.
      * apply Forall_app. split; [assumption|]. now constructor.
      * apply IH. now split.
Qed.

Lemma FOP_nth {A : Type} (R : A -> A -> Prop) (l : list A) (i j : nat) (a b : A) :
  ForallOrdPairs R l -> (i < j)%nat ->
  nth_error l i = Some a -> nth_error l j = Some b -> R a b.
Proof.
  intros H. revert i j. induction H as [|c l Hc Hl IH]; intros i j Hij Hi Hj.
  - now destruct i.
  - destruct j as [|j]; [lia|]. simpl in Hj.
    destruct i as [|i]; simpl in Hi.
    + injection Hi as ->. rewrite Forall_forall in Hc.
      apply Hc. eapply nth_error_In; eauto.
    + apply (IH i j); auto. lia.
Qed.

Lemma place_spans (ch : Z) (len : nat) (r : row) (index : nat) (im : image) :
  0 < ch -> 0 < fst (size im) < sprite_width ->
  spans_row r -> spans_row (place ch len r (index, im)).
Proof.
  intros Hch Hw (F & P & X). unfold spans_row.
  place_cases ch len r index im; simpl;
    (split; [|split]);
    try (apply Forall_app; split;
         [ eapply Forall_impl; [|exact F]; cbv beta;
           intros c (? & ? & ? & ?); unfold in_row in *; repeat split; lia
         | constructor; [|constructor];
           unfold in_row, rule_x, rule_of; simpl; repeat split; lia ]);
    try (apply FOP_snoc; split; [exact P|];
         eapply Forall_impl; [|exact F]; cbv beta;
         intros c (? & ? & ? & ?); unfold apart, rule_x, rule_of in *; simpl; lia);
    try lia.
Qed.

(** After the last image of a size [x] is below 768 when every width is. *)
Lemma pack_images_x (ch : Z) (group : list image) (r : row) :
  x r < sprite_width ->
  Forall (fun im => 0 < fst (size im) < sprite_width) group ->
  x (pack_images ch group r) < sprite_width.
Proof.
  intros Hx Hg. destruct group as [|im0 group0] using rev_ind; [exact Hx|].
  apply Forall_app in Hg as [_ Hg]. inversion Hg as [|? ? Hw _]; subst.
  rewrite pack_images_snoc.
  set (r1 := pack_front ch _ group0 r).
  place_cases ch (S (List.length group0)) r1 (List.length group0) im0; simpl; try lia.
  destruct L. apply last_is_last.
Qed.

Lemma start_row_spans (ch : Z) (s : sheet) :
  spans_sheet s -> spans_row (start_row ch s).
Proof.
  intros [F P]. unfold spans_row, start_row. simpl. split; [|split].
  - eapply Forall_impl; [|exact F]. cbv beta. intros c (? & ? & ?).
    unfold in_row in *. repeat split; lia.
  - exact P.
  - unfold sprite_width. lia.
Qed.

Lemma append_last_row_spans (ch : Z) (r : row) :
  0 < ch -> x r < sprite_width -> spans_row r -> spans_sheet (append_last_row ch r).
Proof.
  intros Hch Hx (F & P & X). unfold append_last_row.
  destruct (Z.ltb_spec (x r) sprite_width); [|lia].
  split; simpl; [|exact P].
  eapply Forall_impl; [|exact F]. cbv beta. intros c (? & ? & ? & ?).
  unfold in_row in *. repeat split; lia.
Qed.

Lemma pack_key_spans (m : images_dict) (s : sheet) (key : string) :
  0 < snd (key_size key) ->
  Forall (fun im => 0 < fst (size im) < sprite_width) (dict_get m key) ->
  spans_sheet s -> spans_sheet (pack_key m s key).
Proof.
  intros Hch Hg Hs. unfold pack_key. destruct (key_size key) as [cw ch]. simpl in Hch.
  apply append_last_row_spans; [exact Hch| |].
  - apply pack_images_x; [reflexivity|exact Hg].
  - apply (pack_images_inv ch (fun _ => spans_row)
             (fun _ im => 0 < fst (size im) < sprite_width) (dict_get m key) []).
    + intros. now apply place_spans.
    + now apply all_ok_Forall.
    + now apply start_row_spans.
Qed.

Lemma pack_keys_spans (m : images_dict) (keys : list string) (s : sheet) :
  (forall key, In key keys ->
     0 < snd (key_size key) /\
     Forall (fun im => 0 < fst (size im) < sprite_width) (dict_get m key)) ->
  spans_sheet s -> spans_sheet (fold_left (pack_key m) keys s).
Proof.
  revert s. induction keys as [|k keys IH]; intros s Hk Hs; simpl; [exact Hs|].
  apply IH.
  - intros key Hin. apply Hk. now right.
  - destruct (Hk k) as [H1 H2]; [now left|]. now apply pack_key_spans.
Qed.

(** What the keys and the lists of the dictionary of [pack] are. *)
Lemma pack_group_image (images : list image) (key : string) (im : image) :
  In im (dict_get (organize (sort_images images)) key) ->
  In im images /\ size_key (size im) = key.
Proof.
  rewrite organize_get. intros H. apply filter_In in H as [H Hk].
  unfold sort_images in H. rewrite sort_in in H.
  split; [exact H|]. now apply String.eqb_eq.
Qed.

Lemma pack_key_image (images : list image) (key : string) :
  In key (sorted_keys (organize (sort_images images))) ->
  exists im, In im images /\ key_size key = size im.
Proof.
  rewrite sort_keys_in, organize_keys. intros (im & H & <-).
  unfold sort_images in H. rewrite sort_in in H.
  exists im. split; [exact H|apply key_size_size_key].
Qed.

Lemma pack_keys_valid (images : list image) (key : string) :
  Forall valid_image images ->
  In key (sorted_keys (organize (sort_images images))) ->
  0 < snd (key_size key) /\
  Forall (fun im => 0 < fst (size im) < sprite_width)
         (dict_get (organize (sort_images images)) key).
Proof.
  intros V Hk. rewrite Forall_forall in V. split.
  - apply pack_key_image in Hk as (im & Him & ->). now apply V.
  - apply Forall_forall. intros im Him. apply pack_group_image in Him as [Him _].
    now apply V.
Qed.

Lemma pack_spans (images : list image) :
  Forall valid_image images -> spans_sheet (pack images).
Proof.
  intros V. unfold pack. apply pack_keys_spans.
  - intros key. now apply pack_keys_valid.
  - split; constructor.
Qed.

Lemma apart_sym (r1 r2 : css_rule) : apart r1 r2 -> apart r2 r1.
Proof. unfold apart. intros H E. symmetry in E. apply H in E. tauto. Qed.

Lemma apart_NoDup (l : list css_rule) :
  Forall (fun c => 0 < width c) l -> ForallOrdPairs apart l -> NoDup l.
Proof.
  intros W P. induction P as [|a l Ha Hl IH]; [constructor|].
  inversion W as [|? ? Wa Wl]; subst.
  constructor; [|now apply IH].
  intros Hin. rewrite Forall_forall in Ha. specialize (Ha a Hin).
  unfold apart in Ha. lia.
Qed.

(** C6: when every image has positive width and height and is less than
    768 pixels wide, the span of every rule lies within the row, from 0
    to 768, and two rules of the style sheet with the same vertical
    position have disjoint spans. *)
Theorem rules_in_row_and_apart (sprite_dir : string) (images : list image)
        (sp : Sprite) (style : list css_rule) :
  Forall valid_image images ->
  SpriteCreator_init sprite_dir images = Created sp style ->
  (forall r, In r style ->
     0 <= rule_x r /\ rule_x r < rule_x r + width r /\
     rule_x r + width r <= sprite_width) /\
  (forall i j ri rj,
     i <> j -> nth_error style i = Some ri -> nth_error style j = Some rj ->
     pos_y ri = pos_y rj ->
     rule_x ri + width ri <= rule_x rj \/ rule_x rj + width rj <= rule_x ri).
Proof.
  intros V H. apply init_created in H as (_ & _ & ->).
  destruct (pack_spans images V) as [F P].
  assert (W : Forall (fun c => 0 < width c) (css (pack images))).
  { eapply Forall_impl; [|exact F]. cbv beta. tauto. }
  pose proof (apart_NoDup _ W P) as N.
  pose proof (sort_css_perm (css (pack images))) as Perm.
  split.
  - intros r Hr. apply (Permutation_in _ Perm) in Hr.
    rewrite Forall_forall in F. destruct (F r Hr) as ([? ?] & ? & _). lia.
  - intros i j ri rj Hij Hi Hj.
    assert (Hne : ri <> rj).
    { intros ->. apply Hij.
      apply (proj1 (NoDup_nth_error (sort_css (css (pack images))))).
      - eapply Permutation_NoDup; [symmetry; exact Perm|exact N].
      - apply nth_error_Some. congruence.
      - congruence. }
    apply nth_error_In in Hi, Hj.
    apply (Permutation_in _ Perm) in Hi, Hj.
    destruct (ForallOrdPairs_In P ri rj Hi Hj) as [E|[A|A]];
      [contradiction|exact A|exact (apart_sym _ _ A)].
Qed.

Lemma rules_in_row_and_apart_witness :
  let images := [img "a" 384 50; img "b" 384 50; img "c" 700 50; img "d" 700 50] in
  Forall valid_image images /\
  (forall r, In r (sort_css (css (pack images))) ->
     0 <= rule_x r /\ rule_x r < rule_x r + width r /\
     rule_x r + width r <= sprite_width) /\
  (forall i j ri rj,
     i <> j -> nth_error (sort_css (css (pack images))) i = Some ri ->
     nth_error (sort_css (css (pack images))) j = Some rj ->
     pos_y ri = pos_y rj ->
     rule_x ri + width ri <= rule_x rj \/ rule_x rj + width rj <= rule_x ri).
Proof.
  intros images.
  assert (V : Forall valid_image images)
    by (repeat constructor; simpl; unfold sprite_width; lia).
  split; [exact V|].
  exact (rules_in_row_and_apart "sprites" images (compose (pack images))
           (sort_css (css (pack images))) V eq_refl).
Defined.

(** ** Vertical positions *)

Lemma FOP_impl_in {A : Type} (R S : A -> A -> Prop) (l : list A) :
  (forall a b, In a l -> In b l -> R a b -> S a b) ->
  ForallOrdPairs R l -> ForallOrdPairs S l.
Proof.
  intros H P. induction P as [|a l Ha Hl IH]; constructor.
  - rewrite Forall_forall in *. intros b Hb. apply H; [now left|now right|auto].
  - apply IH. intros b c Hb Hc. apply H; now right.
Qed.

Lemma pasted_known_paste (seen : list image) (c : Canvas) (im : image) (box : Z * Z) :
  pasted_known seen c -> pasted_known (seen ++ [im]) (paste c im box).
Proof.
  intros H im' box' Hin. simpl in Hin. rewrite map_app. apply in_or_app.
  apply in_app_or in Hin as [Hin|[[= <- <-]|[]]]; [left; eauto|right; now left].
Qed.

Lemma pasted_known_app (seen more : list image) (c : Canvas) :
  pasted_known seen c -> pasted_known (seen ++ more) c.
Proof.
  intros H im' box Hin. rewrite map_app. apply in_or_app. left. eauto.
Qed.

(** The rule of an image that was not placed yet is on no canvas made of
    the images placed so far. *)
Lemma fresh_not_on (seen : list image) (im : image) (rn : css_rule) (c : Canvas) :
  fresh seen im -> cls rn = filename im -> pasted_known seen c -> ~ on_canvas rn c.
Proof.
  intros Hf Hn Hk (im' & box & Hin & E). apply Hf.
  rewrite <- Hn, <- E. eauto.
Qed.

Lemma sealed_inv_rule (seen : list image) (rules : list css_rule)
      (cs : list Canvas) (h : Z) (im : image) (rn : css_rule) :
  fresh seen im -> cls rn = filename im ->
  sealed_inv seen rules cs h -> sealed_inv (seen ++ [im]) (rules ++ [rn]) cs h.
Proof.
  intros Hf Hn (K & Pk & Ab & Lv & Bl).
  assert (Hnot : forall c, In c cs -> ~ on_canvas rn c).
  { intros c Hc. rewrite Forall_forall in Pk.
    apply (fresh_not_on seen im); auto. }
  split; [|split; [|split; [|split]]].
  - intros r Hr. rewrite map_app. apply in_or_app.
    apply in_app_or in Hr as [Hr|[<-|[]]]; [left; auto|right].
    rewrite Hn. now left.
  - eapply Forall_impl; [|exact Pk]. intros c. apply pasted_known_app.
  - rewrite Forall_forall in *. intros c Hc r Hr Hon.
    apply in_app_or in Hr as [Hr|[<-|[]]]; [eauto|].
    now apply Hnot in Hon.
  - rewrite Forall_forall in *. intros c Hc. destruct (Lv c Hc) as [y Hy].
    exists y. intros r Hr Hon.
    apply in_app_or in Hr as [Hr|[<-|[]]]; [eauto|].
    now apply Hnot in Hon.
  - eapply FOP_impl_in; [|exact Bl]. intros c1 c2 H1 H2 HB Hne r1 r2 Hr1 Hr2 On1 On2.
    apply in_app_or in Hr1 as [Hr1|[<-|[]]]; [|now apply Hnot in On1].
    apply in_app_or in Hr2 as [Hr2|[<-|[]]]; [|now apply Hnot in On2].
    now apply HB.
Qed.

Lemma sealed_inv_seal (seen : list image) (rules : list css_rule)
      (cs : list Canvas) (h h' y : Z) (c : Canvas) :
  pasted_known seen c -> level rules c y -> y <= 0 - h -> 0 - h' < y ->
  sealed_inv seen rules cs h -> sealed_inv seen rules (cs ++ [c]) h'.
Proof.
  intros Hk Hl Hy Hy' (K & Pk & Ab & Lv & Bl).
  split; [exact K|]. split; [|split; [|split]].
  - apply Forall_app. split; [exact Pk|]. now constructor.
  - apply Forall_app. split.
    + eapply Forall_impl; [|exact Ab]. cbv beta. intros c1 H r Hr Hon.
      specialize (H r Hr Hon). lia.
    + constructor; [|constructor]. intros r Hr Hon. rewrite (Hl r Hr Hon). lia.
  - apply Forall_app. split; [exact Lv|]. constructor; [|constructor]. now exists y.
  - apply FOP_snoc. split; [exact Bl|].
    eapply Forall_impl; [|exact Ab]. cbv beta.
    intros c1 H _ r1 r2 Hr1 Hr2 On1 On2.
    specialize (H r1 Hr1 On1). rewrite (Hl r2 Hr2 On2). lia.
Qed.

Lemma sealed_inv_twice (seen : list image) (rules : list css_rule)
      (cs : list Canvas) (h h' : Z) (c : Canvas) :
  h <= h' ->
  sealed_inv seen rules (cs ++ [c]) h -> sealed_inv seen rules ((cs ++ [c]) ++ [c]) h'.
Proof.
  intros Hh (K & Pk & Ab & Lv & Bl).
  assert (Hc : In c (cs ++ [c])) by (apply in_or_app; right; now left).
  split; [exact K|]. split; [|split; [|split]].
  - apply Forall_app. split; [exact Pk|]. constructor; [|constructor].
    rewrite Forall_forall in Pk. exact (Pk c Hc).
  - assert (Ab' : Forall (fun c => forall r, In r rules -> on_canvas r c ->
                                             0 - h' < pos_y r) (cs ++ [c])).
    { eapply Forall_impl; [|exact Ab]. cbv beta. intros c1 H r Hr Hon.
      specialize (H r Hr Hon). lia. }
    apply Forall_app. split; [exact Ab'|]. constructor; [|constructor].
    rewrite Forall_forall in Ab'. exact (Ab' c Hc).
  - apply Forall_app. split; [exact Lv|]. constructor; [|constructor].
    rewrite Forall_forall in Lv. exact (Lv c Hc).
  - apply FOP_snoc. split; [exact Bl|].
    apply FOP_snoc in Bl as [_ Bl].
    apply Forall_app. split; [exact Bl|].
    constructor; [|constructor]. intros Hne. now destruct Hne.
Qed.

(** Pasting an image on the current canvas and emitting its rule at the
    current height. *)
Lemma offsets_put (seen : list image) (rules : list css_rule) (cs : list Canvas)
      (h : Z) (cur : Canvas) (im : image) (px : Z) (box : Z * Z) :
  fresh seen im ->
  sealed_inv seen rules cs h -> pasted_known seen cur -> level rules cur (0 - h) ->
  sealed_inv (seen ++ [im]) (rules ++ [rule_of im px (0 - h)]) cs h /\
  pasted_known (seen ++ [im]) (paste cur im box) /\
  level (rules ++ [rule_of im px (0 - h)]) (paste cur im box) (0 - h).
Proof.
  intros Hf S Hk Hl. split; [|split].
  - now apply sealed_inv_rule.
  - intros im' box' Hin. simpl in Hin. rewrite map_app. apply in_or_app.
    apply in_app_or in Hin as [Hin|[[= <- <-]|[]]]; [left; eauto|right; now left].
  - intros r Hr Hon. apply in_app_or in Hr as [Hr|[<-|[]]]; [|reflexivity].
    apply Hl; [exact Hr|].
    destruct Hon as (im' & box' & Hin & E). simpl in Hin.
    apply in_app_or in Hin as [Hin|[[= <- <-]|[]]]; [now exists im', box'|].
    exfalso. apply Hf. rewrite E. destruct S as (K & _). auto.
Qed.

(** Appending the current canvas and starting a new one with the image,
    its rule emitted at the advanced height. *)
Lemma offsets_overflow (seen : list image) (rules : list css_rule)
      (cs : list Canvas) (h ch : Z) (cur new : Canvas) (im : image) (box : Z * Z) :
  0 < ch -> fresh seen im -> pasted new = [] ->
  sealed_inv seen rules cs h -> pasted_known seen cur -> level rules cur (0 - h) ->
  sealed_inv (seen ++ [im]) (rules ++ [rule_of im 0 (0 - (h + ch))])
             (cs ++ [cur]) (h + ch) /\
  pasted_known (seen ++ [im]) (paste new im box) /\
  level (rules ++ [rule_of im 0 (0 - (h + ch))]) (paste new im box) (0 - (h + ch)).
Proof.
  intros Hch Hf Hnew S Hk Hl. split; [|split].
  - apply sealed_inv_rule; auto.
    apply (sealed_inv_seal seen rules cs h (h + ch) (0 - h)); auto; lia.
  - intros im' box' Hin. simpl in Hin. rewrite Hnew in Hin.
    destruct Hin as [[= <- <-]|[]]. rewrite map_app. apply in_or_app. right. now left.
  - intros r Hr Hon. apply in_app_or in Hr as [Hr|[<-|[]]]; [|reflexivity].
    destruct Hon as (im' & box' & Hin & E). simpl in Hin. rewrite Hnew in Hin.
    destruct Hin as [[= <- <-]|[]].
    exfalso. apply Hf. rewrite E. destruct S as (K & _). auto.
Qed.

Lemma place_offsets (ch : Z) (len : nat) (seen : list image) (r : row)
      (index : nat) (im : image) :
  0 < ch -> fresh seen im ->
  (branch_of (x r) (fst (size im)) = ExactFit -> ~ is_last len index) ->
  offsets_row seen r -> offsets_row (seen ++ [im]) (place ch len r (index, im)).
Proof.
  intros Hch Hf Hnl (S & Hk & Hl). unfold offsets_row.
  place_cases ch len r index im; simpl.
  - now apply offsets_put.
  - now destruct Hnl.
  - now apply offsets_put.
  - now apply offsets_overflow.
Qed.

Lemma append_last_row_offsets (ch : Z) (seen : list image) (r : row) :
  0 < ch -> offsets_row seen r -> offsets_sheet seen (append_last_row ch r).
Proof.
  intros Hch (S & Hk & Hl). unfold offsets_sheet, append_last_row.
  destruct (x r <? sprite_width); simpl; [|exact S].
  apply (sealed_inv_seal seen (r_css r) (r_canvases r) (r_height r)
           (r_height r + ch) (0 - r_height r)); auto; lia.
Qed.

Lemma exact_last_offsets (ch : Z) (len : nat) (seen : list image) (r : row)
      (index : nat) (im : image) :
  0 < ch -> fresh seen im ->
  branch_of (x r) (fst (size im)) = ExactFit -> is_last len index ->
  offsets_row seen r ->
  offsets_sheet (seen ++ [im]) (append_last_row ch (place ch len r (index, im))).
Proof.
  intros Hch Hf HB HL (S & Hk & Hl).
  rewrite place_ExactFit_last by assumption.
  destruct (offsets_put seen (r_css r) (r_canvases r) (r_height r) (canvas r)
              im (0 - x r) (x r, 0) Hf S Hk Hl) as (S' & Hk' & Hl').
  apply (sealed_inv_seal _ _ _ (r_height r) (r_height r + ch) (0 - r_height r)
           (paste (canvas r) im (x r, 0)))
    in S'; [|assumption|assumption|lia|lia].
  unfold offsets_sheet, append_last_row. simpl.
  destruct (x r <? sprite_width); simpl; [|exact S'].
  apply (sealed_inv_twice _ _ _ (r_height r + ch)); [lia|exact S'].
Qed.

Lemma start_row_offsets (ch : Z) (seen : list image) (s : sheet) :
  offsets_sheet seen s -> offsets_row seen (start_row ch s).
Proof.
  intros S. split; [exact S|]. split.
  - intros im box [].
  - intros r _ (im & box & [] & _).
Qed.

Lemma pack_key_offsets (m : images_dict) (seen : list image) (s : sheet)
      (key : string) :
  0 < snd (key_size key) -> all_ok fresh seen (dict_get m key) ->
  offsets_sheet seen s ->
  offsets_sheet (seen ++ dict_get m key) (pack_key m s key).
Proof.
  intros Hch Hf Hs. unfold pack_key. destruct (key_size key) as [cw ch]. simpl in Hch.
  destruct (dict_get m key) as [|last front] using rev_ind.
  - rewrite app_nil_r. apply append_last_row_offsets; [exact Hch|].
    now apply start_row_offsets.
  - clear IHfront. apply all_ok_app in Hf as [Hf1 [Hf2 _]].
    rewrite pack_images_snoc, app_assoc.
    assert (Hr : offsets_row (seen ++ front)
                   (pack_front ch (S (List.length front)) front (start_row ch s))).
    { apply (pack_front_inv ch offsets_row fresh).
      - intros seen' r index im Hnl Hfr Hr. now apply place_offsets.
      - exact Hf1.
      - now apply start_row_offsets. }
    set (r1 := pack_front ch _ front _) in *.
    destruct (branch_of (x r1) (fst (size last))) eqn:B.
    + apply append_last_row_offsets; [exact Hch|].
      apply place_offsets; auto. congruence.
    + apply exact_last_offsets; auto using last_is_last.
    + apply append_last_row_offsets; [exact Hch|].
      apply place_offsets; auto. congruence.
Qed.

Lemma pack_keys_offsets (m : images_dict) (keys : list string) (seen : list image)
      (s : sheet) :
  (forall key, In key keys -> 0 < snd (key_size key)) ->
  all_ok fresh seen (List.concat (map (dict_get m) keys)) ->
  offsets_sheet seen s ->
  offsets_sheet (seen ++ List.concat (map (dict_get m) keys))
                (fold_left (pack_key m) keys s).
Proof.
  revert seen s. induction keys as [|k keys IH]; intros seen s Hk Hf Hs; simpl.
  - now rewrite app_nil_r.
  - simpl in Hf. apply all_ok_app in Hf as [Hf1 Hf2].
    rewrite app_assoc. apply IH.
    + intros key Hin. apply Hk. now right.
    + exact Hf2.
    + apply pack_key_offsets; auto. apply Hk. now left.
Qed.

Lemma pack_offsets (images : list image) :
  Forall valid_image images -> NoDup (map filename images) ->
  offsets_sheet (placed_order images) (pack images).
Proof.
  intros V N. unfold pack, placed_order.
  apply (pack_keys_offsets _ _ []).
  - intros key Hk. now apply (pack_keys_valid images key V).
  - apply all_ok_fresh. simpl. eapply Permutation_NoDup; [|exact N].
    apply Permutation_map. symmetry. apply placed_order_perm.
  - split; [intros r []|]. repeat split; constructor.
Qed.

Lemma on_canvas_paste (r : css_rule) (c : Canvas) (im : image) (box : Z * Z) :
  on_canvas r c -> on_canvas r (paste c im box).
Proof.
  intros (im' & box' & Hin & E). exists im', box'. split; [|exact E].
  simpl. apply in_or_app. now left.
Qed.

Lemma on_canvas_pasted (c : Canvas) (im : image) (px py : Z) (box : Z * Z) :
  on_canvas (rule_of im px py) (paste c im box).
Proof.
  exists im, box. split; [|reflexivity]. simpl. apply in_or_app. right. now left.
Qed.

Lemma housed_put (rules : list css_rule) (cs : list Canvas) (cur : Canvas)
      (im : image) (px py : Z) (box : Z * Z) :
  housed rules (cs ++ [cur]) ->
  housed (rules ++ [rule_of im px py]) (cs ++ [paste cur im box]).
Proof.
  intros H r Hr. apply in_app_or in Hr as [Hr|[<-|[]]].
  - destruct (H r Hr) as (c & Hc & Hon).
    apply in_app_or in Hc as [Hc|[<-|[]]].
    + exists c. split; [apply in_or_app; now left|exact Hon].
    + exists (paste cur im box). split; [apply in_or_app; right; now left|].
      now apply on_canvas_paste.
  - exists (paste cur im box). split; [apply in_or_app; right; now left|].
    apply on_canvas_pasted.
Qed.

Lemma housed_more (rules : list css_rule) (cs : list Canvas) (c : Canvas) :
  housed rules cs -> housed rules (cs ++ [c]).
Proof.
  intros H r Hr. destruct (H r Hr) as (c' & Hc & Hon).
  exists c'. split; [apply in_or_app; now left|exact Hon].
Qed.

Lemma place_housed (ch : Z) (len : nat) (r : row) (index : nat) (im : image) :
  housed_row r -> housed_row (place ch len r (index, im)).
Proof.
  unfold housed_row. intros H.
  place_cases ch len r index im; simpl.
  - now apply housed_put.
  - apply housed_more. now apply housed_put.
  - now apply housed_put.
  - apply housed_put. now apply housed_more.
Qed.

Lemma pack_key_housed (m : images_dict) (s : sheet) (key : string) :
  Forall (fun im => 0 < fst (size im) < sprite_width) (dict_get m key) ->
  housed (css s) (canvases s) -> housed (css (pack_key m s key)) (canvases (pack_key m s key)).
Proof.
  intros Hg Hs. unfold pack_key. destruct (key_size key) as [cw ch].
  assert (Hx := pack_images_x ch (dict_get m key) (start_row ch s) eq_refl Hg).
  assert (Hr : housed_row (pack_images ch (dict_get m key) (start_row ch s))).
  { apply (pack_images_inv ch (fun _ => housed_row) (fun _ _ => True)
             (dict_get m key) []).
    - intros. now apply place_housed.
    - apply all_ok_Forall, Forall_forall. auto.
    - unfold housed_row, start_row. simpl. now apply housed_more. }
  unfold append_last_row.
  destruct (Z.ltb_spec (x (pack_images ch (dict_get m key) (start_row ch s)))
              sprite_width); [exact Hr|lia].
Qed.

Lemma pack_housed (images : list image) :
  Forall valid_image images -> housed (css (pack images)) (canvases (pack images)).
Proof.
  intros V. unfold pack.
  set (m := organize (sort_images images)).
  assert (H : forall keys s,
             (forall key, In key keys -> In key (sorted_keys m)) ->
             housed (css s) (canvases s) ->
             housed (css (fold_left (pack_key m) keys s))
                    (canvases (fold_left (pack_key m) keys s))).
  { induction keys as [|k keys IH]; intros s Hk Hs; simpl; [exact Hs|].
    apply IH; [intros key Hin; apply Hk; now right|].
    apply pack_key_housed; [|exact Hs].
    apply (pack_keys_valid images k V). apply Hk. now left. }
  apply H; [auto|]. intros r [].
Qed.

(** C7: for images of positive sizes, less than 768 pixels wide and with
    pairwise distinct names, every rule is the rule of an image of some
    canvas of the sprite; the rules of the images of one canvas all have
    the same vertical position; and of two canvases of the list, the one
    that comes later has all its rules strictly lower than all the rules
    of the earlier one.  A canvas is one object however often the list
    holds it, so the two canvases compared are different ones. *)
Theorem different_canvases_descend (sprite_dir : string)
        (images : list image) (sp : Sprite) (style : list css_rule) :
  Forall valid_image images -> NoDup (map filename images) ->
  SpriteCreator_init sprite_dir images = Created sp style ->
  let cs := map fst (blits sp) in
  (forall r, In r style -> exists c, In c cs /\ on_canvas r c) /\
  (forall c r1 r2,
     In c cs -> In r1 style -> In r2 style ->
     on_canvas r1 c -> on_canvas r2 c -> pos_y r1 = pos_y r2) /\
  (forall i j ci cj r1 r2,
     (i < j)%nat -> nth_error cs i = Some ci -> nth_error cs j = Some cj ->
     ci <> cj ->
     In r1 style -> In r2 style -> on_canvas r1 ci -> on_canvas r2 cj ->
     pos_y r2 < pos_y r1).
Proof.
  intros V N H cs. apply init_created in H as (_ & -> & ->).
  subst cs. rewrite compose_eq. simpl. rewrite stack_fst.
  destruct (pack_offsets images V N) as (_ & _ & _ & Lv & Bl).
  pose proof (sort_css_perm (css (pack images))) as Perm.
  split; [|split].
  - intros r Hr. apply (Permutation_in _ Perm) in Hr.
    now apply (pack_housed images V).
  - intros c r1 r2 Hc H1 H2 On1 On2.
    apply (Permutation_in _ Perm) in H1, H2.
    rewrite Forall_forall in Lv. destruct (Lv c Hc) as [y Hy].
    rewrite (Hy r1 H1 On1), (Hy r2 H2 On2). reflexivity.
  - intros i j ci cj r1 r2 Hij Hi Hj Hne H1 H2 On1 On2.
    apply (Permutation_in _ Perm) in H1, H2.
    exact (FOP_nth _ _ i j ci cj Bl Hij Hi Hj Hne r1 r2 H1 H2 On1 On2).
Qed.

Lemma different_canvases_descend_witness :
  let images := [img "a" 384 50; img "b" 384 50; img "c" 700 60; img "d" 700 60] in
  let sp := compose (pack images) in
  let style := sort_css (css (pack images)) in
  let cs := map fst (blits sp) in
  (Forall valid_image images /\ NoDup (map filename images)) /\
  (forall r, In r style -> exists c, In c cs /\ on_canvas r c) /\
  (forall c r1 r2,
     In c cs -> In r1 style -> In r2 style ->
     on_canvas r1 c -> on_canvas r2 c -> pos_y r1 = pos_y r2) /\
  (forall i j ci cj r1 r2,
     (i < j)%nat -> nth_error cs i = Some ci -> nth_error cs j = Some cj ->
     ci <> cj ->
     In r1 style -> In r2 style -> on_canvas r1 ci -> on_canvas r2 cj ->
     pos_y r2 < pos_y r1).
Proof.
  intros images sp style cs.
  assert (V : Forall valid_image images)
    by (repeat constructor; simpl; unfold sprite_width; lia).
  assert (N : NoDup (map filename images))
    by (simpl; repeat constructor; simpl; intuition discriminate).
  split; [now split|].
  exact (different_canvases_descend "sprites" images sp style V N eq_refl).
Defined.

(** The two canvases have to be different ones: on two images of 384 by
    50 the canvas is appended twice (see C1), the list holds it at two
    places, and its rules are of course not lower than themselves. *)
Lemma twice_appended_row_is_not_lower :
  let a := img "a" 384 50 in
  let b := img "b" 384 50 in
  let row_ab := {| canvas_size := (768, 50); canvas_color := transparent;
                   pasted := [(a, (0, 0)); (b, (384, 0))] |} in
  let s := pack [a; b] in
  canvases s = [row_ab; row_ab] /\
  css s = [rule_of a 0 0; rule_of b (-384) 0] /\
  ~ (forall i j ci cj r1 r2,
       (i < j)%nat -> nth_error (canvases s) i = Some ci ->
       nth_error (canvases s) j = Some cj ->
       In r1 (css s) -> In r2 (css s) -> on_canvas r1 ci -> on_canvas r2 cj ->
       pos_y r2 < pos_y r1).
Proof.
  intros a b row_ab s.
  assert (Hs : s = {| css := [rule_of a 0 0; rule_of b (-384) 0];
                      canvases := [row_ab; row_ab];
                      sprite_height := 100 |}) by (vm_compute; reflexivity).
  rewrite Hs. simpl. split; [reflexivity|]. split; [reflexivity|].
  intros H.
  assert (Hon : on_canvas (rule_of a 0 0) row_ab).
  { exists a, (0, 0). split; [now left|reflexivity]. }
  specialize (H 0%nat 1%nat row_ab row_ab (rule_of a 0 0) (rule_of a 0 0)).
  simpl in H. specialize (H (Nat.lt_0_succ 0) eq_refl eq_refl (or_introl eq_refl)
                            (or_introl eq_refl) Hon Hon).
  lia.
Qed.

(** ** Canvases that are never appended *)

Lemma place_pasted (ch : Z) (len : nat) (seen : list image) (r : row)
      (index : nat) (im : image) :
  pasted_row seen r -> pasted_row (seen ++ [im]) (place ch len r (index, im)).
Proof.
  intros [Hs Hc].
  assert (Hs' : Forall (pasted_known (seen ++ [im])) (r_canvases r)).
  { eapply Forall_impl; [|exact Hs]. intros c. apply pasted_known_app. }
  unfold pasted_row.
  place_cases ch len r index im; simpl; split;
    try apply Forall_app; try split;
    try (constructor; [|constructor]);
    auto using pasted_known_paste, pasted_known_app.
  apply pasted_known_paste. intros im' box [].
Qed.

Lemma pack_key_pasted (m : images_dict) (seen : list image) (s : sheet)
      (key : string) :
  Forall (pasted_known seen) (canvases s) ->
  Forall (pasted_known (seen ++ dict_get m key)) (canvases (pack_key m s key)).
Proof.
  intros Hs. unfold pack_key. destruct (key_size key) as [cw ch].
  assert (Hr : pasted_row (seen ++ dict_get m key)
                 (pack_images ch (dict_get m key) (start_row ch s))).
  { apply (pack_images_inv ch pasted_row (fun _ _ => True)).
    - intros. now apply place_pasted.
    - apply all_ok_Forall, Forall_forall. auto.
    - split; [exact Hs|]. intros im box []. }
  destruct Hr as [H1 H2]. unfold append_last_row.
  destruct (x _ <? sprite_width); simpl; [|exact H1].
  apply Forall_app. split; [exact H1|]. now constructor.
Qed.

Lemma pack_keys_pasted (m : images_dict) (keys : list string) (seen : list image)
      (s : sheet) :
  Forall (pasted_known seen) (canvases s) ->
  Forall (pasted_known (seen ++ List.concat (map (dict_get m) keys)))
         (canvases (fold_left (pack_key m) keys s)).
Proof.
  revert seen s. induction keys as [|k keys IH]; intros seen s Hs; simpl.
  - now rewrite app_nil_r.
  - rewrite app_assoc. apply IH. now apply pack_key_pasted.
Qed.

Lemma place_css_incl (ch : Z) (len : nat) (r : row) (index : nat) (im : image)
      (c : css_rule) :
  In c (r_css r) -> In c (r_css (place ch len r (index, im))).
Proof.
  intros H. place_cases ch len r index im; simpl; apply in_or_app; now left.
Qed.

Lemma pack_key_css_incl (m : images_dict) (s : sheet) (key : string) (c : css_rule) :
  In c (css s) -> In c (css (pack_key m s key)).
Proof.
  intros H. unfold pack_key. destruct (key_size key) as [cw ch].
  rewrite append_last_row_css.
  apply (pack_images_inv ch (fun _ r => In c (r_css r)) (fun _ _ => True)
           (dict_get m key) []).
  - intros. now apply place_css_incl.
  - apply all_ok_Forall, Forall_forall. auto.
  - exact H.
Qed.

Lemma pack_keys_css_incl (m : images_dict) (keys : list string) (s : sheet)
      (c : css_rule) :
  In c (css s) -> In c (css (fold_left (pack_key m) keys s)).
Proof.
  revert s. induction keys as [|k keys IH]; intros s H; simpl; [exact H|].
  now apply IH, pack_key_css_incl.
Qed.

Lemma pack_key_eq (m : images_dict) (s : sheet) (key : string) :
  pack_key m s key =
  append_last_row (snd (key_size key))
    (pack_images (snd (key_size key)) (dict_get m key)
       (start_row (snd (key_size key)) s)).
Proof. unfold pack_key. now destruct (key_size key). Qed.

Lemma stack_in (y : Z) (cs : list Canvas) (c : Canvas) (box : Z * Z) :
  In (c, box) (stack y cs) -> In c cs.
Proof.
  intros H. apply (in_map fst) in H. now rewrite stack_fst in H.
Qed.

(** C10: when the last image of a size takes the overflow branch and is
    768 pixels wide or wider, [x] is left at its width, the test that
    follows the loop fails, and the canvas on which the image was pasted
    is not appended: no canvas of the sprite holds the image, although
    its rule is in the style sheet. *)
Theorem oversized_last_image_is_lost (sprite_dir : string) (images : list image)
        (keys1 keys2 : list string) (key : string)
        (front : list image) (last : image) :
  let m := organize (sort_images images) in
  sorted_keys m = keys1 ++ key :: keys2 ->
  dict_get m key = front ++ [last] ->
  let ch := snd (key_size key) in
  let s0 := fold_left (pack_key m) keys1 empty_sheet in
  let r := pack_front ch (S (List.length front)) front (start_row ch s0) in
  branch_of (x r) (fst (size last)) = Overflow ->
  sprite_width <= fst (size last) ->
  let r' := pack_images ch (dict_get m key) (start_row ch s0) in
  (x r' <? sprite_width) = false /\
  canvas r' = paste (Image_new (sprite_width, ch) transparent) last (0, 0) /\
  canvases (pack_key m s0 key) = r_canvases r ++ [canvas r] /\
  forall sp style,
    SpriteCreator_init sprite_dir images = Created sp style ->
    In (rule_of last 0 (0 - (r_height r + ch))) style /\
    (NoDup (map filename images) ->
     forall c box box', In (c, box) (blits sp) -> ~ In (last, box') (pasted c)).
Proof.
  intros m Hkeys Hg ch s0 r HB Hw r'.
  assert (Hr' : r' = place ch (S (List.length front)) r (List.length front, last)).
  { subst r'. rewrite Hg. apply pack_images_snoc. }
  rewrite place_Overflow in Hr' by exact HB.
  assert (Hx : (x r' <? sprite_width) = false).
  { rewrite Hr'. simpl. apply Z.ltb_ge. exact Hw. }
  assert (Hpk : pack_key m s0 key =
                {| css := r_css r'; canvases := r_canvases r';
                   sprite_height := r_height r' |}).
  { rewrite pack_key_eq. fold ch. fold r'. unfold append_last_row. now rewrite Hx. }
  split; [exact Hx|]. split; [now rewrite Hr'|]. split; [now rewrite Hpk, Hr'|].
  intros sp style H. apply init_created in H as (_ & -> & ->).
  assert (Hpack : pack images = fold_left (pack_key m) keys2 (pack_key m s0 key)).
  { unfold pack. fold m. rewrite Hkeys, fold_left_app. reflexivity. }
  split; [|intros N].
  2: { intros c box box' Hin Hp. rewrite compose_eq in Hin. simpl in Hin.
    apply stack_in in Hin.
    set (seen0 := List.concat (map (dict_get m) keys1)).
    set (rest := List.concat (map (dict_get m) keys2)).
    assert (H0 : Forall (pasted_known seen0) (canvases s0)).
    { apply (pack_keys_pasted m keys1 [] empty_sheet). constructor. }
    assert (H1 : pasted_row (seen0 ++ front) r).
    { apply (pack_front_inv ch pasted_row (fun _ _ => True)).
      - intros. now apply place_pasted.
      - apply all_ok_Forall, Forall_forall. auto.
      - split; [exact H0|]. intros im box0 []. }
    assert (H2 : Forall (pasted_known (seen0 ++ front)) (canvases (pack_key m s0 key))).
    { rewrite Hpk, Hr'. simpl. destruct H1 as [H1 H1'].
      apply Forall_app. split; [exact H1|]. now constructor. }
    apply (pack_keys_pasted m keys2) in H2. fold rest in H2. rewrite <- Hpack in H2.
    rewrite Forall_forall in H2. specialize (H2 c Hin last box' Hp).
    assert (Hpo : placed_order images = (seen0 ++ front) ++ last :: rest).
    { unfold placed_order. fold m. rewrite Hkeys, map_app, concat_app. simpl.
      rewrite Hg. fold seen0. fold rest. now rewrite <- !app_assoc. }
    assert (N' : NoDup (map filename (placed_order images))).
    { eapply Permutation_NoDup; [|exact N].
      apply Permutation_map. symmetry. apply placed_order_perm. }
    rewrite Hpo, map_app in N'. simpl in N'. apply NoDup_remove_2 in N'.
    apply N'. rewrite <- map_app. exact H2. }
  apply (Permutation_in _ (Permutation_sym (sort_css_perm _))).
  rewrite Hpack. apply pack_keys_css_incl. rewrite Hpk, Hr'. simpl.
  apply in_or_app. right. now left.
Qed.

Lemma oversized_last_image_is_lost_witness :
  let a := img "a" 768 50 in
  let b := img "b" 768 50 in
  let c := img "c" 10 60 in
  let sp := compose (pack [c; b; a]) in
  let style := sort_css (css (pack [c; b; a])) in
  In (rule_of b 0 (-50)) style /\
  (forall cv box box', In (cv, box) (blits sp) -> ~ In (b, box') (pasted cv)).
Proof.
  intros a b c sp style.
  destruct (oversized_last_image_is_lost "sprites" [c; b; a] [] ["10x60"%string]
              "768x50"%string [a] b) as (_ & _ & _ & H).
  - reflexivity.
  - reflexivity.
  - reflexivity.
  - unfold sprite_width. simpl. lia.
  - destruct (H sp style eq_refl) as [H1 H2]. split; [exact H1|].
    apply H2. simpl. repeat constructor; simpl; intuition discriminate.
Defined.

(** * Further properties of the code *)

(** ** The keys of the dictionary *)

(** X1: the key [f'{width}x{height}'] of a size is read back by
    [tuple(map(int, key.split('x')))] as that size and by the sort key
    [int(key.split('x')[1])] as its height, for all integers; different
    sizes therefore never share a key. *)
Theorem size_key_round_trip (sz sz' : Z * Z) :
  key_size (size_key sz) = sz /\
  key_height (size_key sz) = snd sz /\
  (size_key sz = size_key sz' <-> sz = sz').
Proof.
  split; [apply key_size_size_key|]. split; [apply key_height_size_key|].
  split; [|now intros ->].
  intros H. rewrite <- (key_size_size_key sz), <- (key_size_size_key sz').
  now rewrite H.
Qed.

(** X2: the dictionary files every image under exactly one key: the keys
    are pairwise distinct, no key has an empty list, the list of a key
    holds the images of the size the key reads back as, in the order of
    the list sorted by name, and the lists taken together are the input. *)
Theorem images_map_partitions (images : list image) :
  let m := organize (sort_images images) in
  NoDup (dict_keys m) /\
  (forall key, In key (dict_keys m) ->
     dict_get m key <> [] /\
     dict_get m key = filter (fun im => String.eqb (size_key (size im)) key)
                             (sort_images images) /\
     forall im, In im (dict_get m key) -> In im images /\ size im = key_size key) /\
  (forall im, In im images -> In im (dict_get m (size_key (size im)))) /\
  Permutation (List.concat (map (dict_get m) (dict_keys m))) images.
Proof.
  intros m. split; [apply organize_keys_NoDup|]. split; [|split].
  - intros key Hk. split; [|split].
    + apply organize_keys in Hk as (im & Him & E).
      unfold m. rewrite organize_get. intros Hnil.
      assert (Hin : In im (filter (has_key key) (sort_images images))).
      { apply filter_In. split; [exact Him|]. unfold has_key. now apply String.eqb_eq. }
      rewrite Hnil in Hin. destruct Hin.
    + apply organize_get.
    + intros im Him. apply pack_group_image in Him as [Him E].
      split; [exact Him|]. rewrite <- E. symmetry. apply key_size_size_key.
  - intros im Him. unfold m. rewrite organize_get. apply filter_In. split.
    + unfold sort_images. now rewrite sort_in.
    + unfold has_key. apply String.eqb_refl.
  - unfold m. rewrite (map_ext _ _ (organize_get (sort_images images))).
    rewrite groups_perm.
    + apply sort_perm.
    + apply organize_keys_NoDup.
    + intros im Him. apply organize_keys. eauto.
Qed.

(** ** The shape and the order of the canvases *)

Lemma new_rows_refl (ch : Z) (cs : list Canvas) : new_rows ch cs cs.
Proof. exists []. split; [now rewrite app_nil_r|constructor]. Qed.

Lemma new_rows_snoc (ch : Z) (before cs : list Canvas) (c : Canvas) :
  canvas_size c = (sprite_width, ch) -> canvas_color c = transparent ->
  new_rows ch before cs -> new_rows ch before (cs ++ [c]).
Proof.
  intros Hs Hc (rows & -> & F). exists (rows ++ [c]).
  split; [now rewrite app_assoc|].
  apply Forall_app. split; [exact F|]. constructor; [now split|constructor].
Qed.

Lemma place_shape (ch : Z) (len : nat) (before : list Canvas) (r : row)
      (index : nat) (im : image) :
  shape_row ch before r -> shape_row ch before (place ch len r (index, im)).
Proof.
  intros (N & Hs & Hc). unfold shape_row.
  place_cases ch len r index im; simpl; repeat split; auto;
    apply new_rows_snoc; auto.
Qed.

Lemma pack_key_shape (m : images_dict) (s : sheet) (key : string) :
  new_rows (snd (key_size key)) (canvases s) (canvases (pack_key m s key)).
Proof.
  rewrite pack_key_eq. set (ch := snd (key_size key)).
  assert (H : shape_row ch (canvases s)
                (pack_images ch (dict_get m key) (start_row ch s))).
  { apply (pack_images_inv ch (fun _ => shape_row ch (canvases s)) (fun _ _ => True)
             (dict_get m key) []).
    - intros. now apply place_shape.
    - apply all_ok_Forall, Forall_forall. auto.
    - split; [apply new_rows_refl|]. split; reflexivity. }
  destruct H as (N & Hs & Hc). unfold append_last_row.
  destruct (x _ <? sprite_width); simpl; [|exact N].
  now apply new_rows_snoc.
Qed.

Lemma StronglySorted_app {A : Type} (R : A -> A -> Prop) (l1 l2 : list A) :
  StronglySorted R l1 -> StronglySorted R l2 ->
  (forall a b, In a l1 -> In b l2 -> R a b) ->
  StronglySorted R (l1 ++ l2).
Proof.
  intros S1 S2 H. induction S1 as [|a l1 S1 IH Ha]; simpl; [exact S2|].
  constructor.
  - apply IH. intros b c Hb Hc. apply H; [now right|exact Hc].
  - apply Forall_app. split; [exact Ha|].
    apply Forall_forall. intros b Hb. apply H; [now left|exact Hb].
Qed.

Lemma level_rows_ascending (ch : Z) (rows : list Canvas) :
  Forall (fun c => canvas_size c = (sprite_width, ch) /\
                   canvas_color c = transparent) rows ->
  ascending_heights rows.
Proof.
  induction 1 as [|c rows [Hc _] F IH]; [constructor|].
  constructor; [exact IH|].
  eapply Forall_impl; [|exact F]. cbv beta. intros c' [Hc' _].
  unfold canvas_height. rewrite Hc, Hc'. simpl. lia.
Qed.

Lemma pack_keys_ascending (m : images_dict) (keys : list string) (s : sheet) :
  StronglySorted (fun k1 k2 => snd (key_size k1) <= snd (key_size k2)) keys ->
  ascending_heights (canvases s) ->
  (forall c key, In c (canvases s) -> In key keys ->
     canvas_height c <= snd (key_size key)) ->
  ascending_heights (canvases (fold_left (pack_key m) keys s)).
Proof.
  revert s. induction keys as [|k keys IH]; intros s Sk Hs Hb; simpl; [exact Hs|].
  apply StronglySorted_inv in Sk as [Sk Fk]. rewrite Forall_forall in Fk.
  destruct (pack_key_shape m s k) as (rows & E & F).
  apply IH; [exact Sk| |]; rewrite E.
  - apply StronglySorted_app; [exact Hs|now apply (level_rows_ascending _ _ F)|].
    intros a b Ha Hb'. rewrite Forall_forall in F. destruct (F b Hb') as [Hsz _].
    unfold canvas_height at 2. rewrite Hsz. simpl. apply Hb; [exact Ha|now left].
  - intros c key Hc Hkey. apply in_app_or in Hc as [Hc|Hc].
    + apply Hb; [exact Hc|now right].
    + rewrite Forall_forall in F. destruct (F c Hc) as [Hsz _].
      unfold canvas_height. rewrite Hsz. simpl. now apply Fk.
Qed.

Lemma key_size_height (images : list image) (key : string) :
  In key (sorted_keys (organize (sort_images images))) ->
  snd (key_size key) = key_height key.
Proof.
  rewrite sort_keys_in, organize_keys. intros (im & _ & <-).
  now rewrite key_size_size_key, key_height_size_key.
Qed.

Lemma StronglySorted_impl_in {A : Type} (R S : A -> A -> Prop) (l : list A) :
  (forall a b, In a l -> In b l -> R a b -> S a b) ->
  StronglySorted R l -> StronglySorted S l.
Proof.
  intros H Hs. induction Hs as [|a l Hs IH Ha]; [constructor|].
  constructor.
  - apply IH. intros b c Hb Hc. apply H; now right.
  - rewrite Forall_forall in *. intros b Hb. apply H; [now left|now right|auto].
Qed.

Lemma pack_keys_rows (m : images_dict) (keys : list string) (s : sheet) (c : Canvas) :
  In c (canvases (fold_left (pack_key m) keys s)) ->
  In c (canvases s) \/
  exists key, In key keys /\ canvas_size c = (sprite_width, snd (key_size key)) /\
              canvas_color c = transparent.
Proof.
  revert s. induction keys as [|k keys IH]; intros s Hc; simpl in *; [now left|].
  apply IH in Hc as [Hc|(key & Hk & H)]; [|right; exists key; auto].
  destruct (pack_key_shape m s k) as (rows & E & F). rewrite E in Hc.
  apply in_app_or in Hc as [Hc|Hc]; [now left|right].
  rewrite Forall_forall in F. exists k. split; [now left|now apply F].
Qed.

(** X3: whatever the images, every canvas of the list is transparent, 768
    pixels wide and as high as some image of the input, and the canvases
    come in ascending order of their heights: the sprite stacks the
    shortest rows at the top (the comments of the source say
    "descending"). *)
Theorem rows_ascend_in_height (images : list image) :
  ascending_heights (canvases (pack images)) /\
  forall c, In c (canvases (pack images)) ->
    canvas_color c = transparent /\
    exists im, In im images /\ canvas_size c = (sprite_width, snd (size im)).
Proof.
  split.
  - unfold pack. apply pack_keys_ascending; [|constructor|intros c key []].
    apply (StronglySorted_impl_in (fun k1 k2 => key_height k1 <= key_height k2));
      [|apply sort_keys_ascending].
    intros a b Ha Hb H.
    now rewrite (key_size_height images a Ha), (key_size_height images b Hb).
  - intros c Hc. unfold pack in Hc.
    apply pack_keys_rows in Hc as [[]|(key & Hk & Hs & Hcol)].
    split; [exact Hcol|].
    apply pack_key_image in Hk as (im & Him & E).
    exists im. split; [exact Him|]. now rewrite Hs, E.
Qed.

(** ** Images side by side *)

Lemma width_sum_app (l1 l2 : list (image * (Z * Z))) :
  width_sum (l1 ++ l2) = width_sum l1 + width_sum l2.
Proof.
  induction l1 as [|p l1 IH]; simpl; [reflexivity|]. rewrite IH. lia.
Qed.

Lemma tight_snoc (x0 : Z) (l : list (image * (Z * Z))) (im : image) :
  tight x0 l -> tight x0 (l ++ [(im, (x0 + width_sum l, 0))]).
Proof.
  revert x0. induction l as [|[im' box] l IH]; intros x0; simpl.
  - intros _. split; [|exact I]. f_equal. lia.
  - intros [-> H]. split; [reflexivity|].
    replace (x0 + (fst (size im') + width_sum l))
      with (x0 + fst (size im') + width_sum l) by lia.
    now apply IH.
Qed.

Lemma packed_paste (v : Prop) (c : Canvas) (im : image) :
  packed v c -> (v -> width_sum (pasted c) + fst (size im) <= sprite_width) ->
  packed v (paste c im (width_sum (pasted c), 0)).
Proof.
  intros [Ht Hf] Hw. split; simpl.
  - now apply (tight_snoc 0) with (im := im) in Ht.
  - intros Hv. rewrite width_sum_app. simpl. specialize (Hw Hv). lia.
Qed.

Lemma packed_new (v : Prop) (ch : Z) (im : image) :
  (v -> fst (size im) <= sprite_width) ->
  packed v (paste (Image_new (sprite_width, ch) transparent) im (0, 0)).
Proof.
  intros Hw. split; simpl; [now split|]. intros Hv. specialize (Hw Hv). lia.
Qed.

Lemma place_packed (v : Prop) (ch : Z) (len : nat) (r : row) (index : nat)
      (im : image) :
  (v -> 0 < fst (size im) < sprite_width) ->
  (branch_of (x r) (fst (size im)) = ExactFit -> ~ is_last len index) ->
  packed_row v r -> packed_row v (place ch len r (index, im)).
Proof.
  intros Hw Hnl (Hs & Hc & Hx). unfold packed_row.
  place_cases ch len r index im; simpl.
  - rewrite Hx. split; [exact Hs|]. split.
    + apply packed_paste; [exact Hc|]. intros Hv. lia.
    + rewrite width_sum_app. simpl. lia.
  - now destruct Hnl.
  - rewrite Hx. split; [exact Hs|]. split.
    + apply packed_paste; [exact Hc|]. intros Hv. lia.
    + rewrite width_sum_app. simpl. lia.
  - split; [|split].
    + apply Forall_app. split; [exact Hs|]. now constructor.
    + apply packed_new. intros Hv. specialize (Hw Hv). lia.
    + lia.
Qed.

(** After the last iteration and the test that follows it. *)
Lemma last_packed (v : Prop) (ch : Z) (len : nat) (r : row) (index : nat)
      (im : image) :
  (v -> 0 < fst (size im) < sprite_width) ->
  packed_row v r ->
  Forall (packed v) (canvases (append_last_row ch (place ch len r (index, im)))).
Proof.
  intros Hw Hr.
  destruct (branch_of (x r) (fst (size im))) eqn:B;
    try (assert (Hr' : packed_row v (place ch len r (index, im)))
           by (apply place_packed; auto; congruence);
         destruct Hr' as (Hs & Hc & _); unfold append_last_row;
         destruct (x _ <? sprite_width); simpl; [|exact Hs];
         apply Forall_app; split; [exact Hs|now constructor]).
  destruct (is_last_dec len index) as [L|L].
  - rewrite place_ExactFit_last by assumption.
    destruct Hr as (Hs & Hc & Hx).
    pose proof (branch_of_spec (x r) (fst (size im))) as S. rewrite B in S.
    assert (Hc' : packed v (paste (canvas r) im (x r, 0))).
    { rewrite Hx. apply packed_paste; [exact Hc|]. intros _. lia. }
    unfold append_last_row. simpl.
    destruct (x r <? sprite_width); simpl;
      repeat (apply Forall_app; split); try exact Hs; now constructor.
  - assert (Hr' : packed_row v (place ch len r (index, im)))
      by (apply place_packed; auto).
    destruct Hr' as (Hs & Hc & _). unfold append_last_row.
    destruct (x _ <? sprite_width); simpl; [|exact Hs].
    apply Forall_app. split; [exact Hs|now constructor].
Qed.

Lemma pack_key_packed (v : Prop) (m : images_dict) (s : sheet) (key : string) :
  (v -> Forall (fun im => 0 < fst (size im) < sprite_width) (dict_get m key)) ->
  Forall (packed v) (canvases s) ->
  Forall (packed v) (canvases (pack_key m s key)).
Proof.
  intros Hw Hs. rewrite pack_key_eq. set (ch := snd (key_size key)).
  assert (H0 : packed_row v (start_row ch s)).
  { split; [exact Hs|]. split; [|reflexivity].
    split; simpl; [exact I|]. intros _. unfold sprite_width. lia. }
  destruct (dict_get m key) as [|last front _] using rev_ind.
  - destruct H0 as (H1 & H2 & _). unfold pack_images, append_last_row. simpl.
    apply Forall_app. split; [exact H1|now constructor].
  - rewrite pack_images_snoc.
    assert (Hw1 : v -> Forall (fun im => 0 < fst (size im) < sprite_width) front).
    { intros Hv. specialize (Hw Hv). now apply Forall_app in Hw as [Hw _]. }
    assert (Hw2 : v -> 0 < fst (size last) < sprite_width).
    { intros Hv. specialize (Hw Hv). apply Forall_app in Hw as [_ Hw].
      now inversion Hw. }
    apply last_packed; [exact Hw2|].
    apply (pack_front_inv ch (fun _ => packed_row v)
             (fun _ im => v -> 0 < fst (size im) < sprite_width) front []).
    + intros seen r index im Hnl Hok Hr. now apply place_packed.
    + apply all_ok_Forall, Forall_forall. intros im Him Hv.
      specialize (Hw1 Hv). rewrite Forall_forall in Hw1. auto.
    + exact H0.
Qed.

Lemma pack_packed (v : Prop) (images : list image) :
  (v -> Forall valid_image images) ->
  Forall (packed v) (canvases (pack images)).
Proof.
  intros Hv. unfold pack. set (m := organize (sort_images images)).
  assert (H : forall keys s,
             Forall (packed v) (canvases s) ->
             Forall (packed v) (canvases (fold_left (pack_key m) keys s))).
  { induction keys as [|k keys IH]; intros s Hs; simpl; [exact Hs|].
    apply IH, pack_key_packed; [|exact Hs].
    intros V. specialize (Hv V). rewrite Forall_forall in Hv.
    apply Forall_forall. intros im Him.
    apply pack_group_image in Him as [Him _]. now apply Hv. }
  apply H. constructor.
Qed.

(** X4: whatever the images, on every canvas of the list the images are
    pasted at row 0 side by side from column 0, each one starting where
    the one before it ends; and when every image is valid, the images of
    a canvas end at or before column 768, so that nothing is cut off. *)
Theorem images_are_side_by_side (images : list image) :
  Forall (fun c => tight 0 (pasted c)) (canvases (pack images)) /\
  (Forall valid_image images ->
   Forall (fun c => width_sum (pasted c) <= sprite_width) (canvases (pack images))).
Proof.
  split.
  - pose proof (pack_packed False images (fun F => match F with end)) as H.
    eapply Forall_impl; [|exact H]. now intros c [Ht _].
  - intros V. pose proof (pack_packed True images (fun _ => V)) as H.
    eapply Forall_impl; [|exact H]. intros c [_ Hf]. now apply Hf.
Qed.

(** ** Where the rules point *)

Lemma firstn_app_le {A : Type} (i : nat) (l1 l2 : list A) :
  (i <= List.length l1)%nat -> firstn i (l1 ++ l2) = firstn i l1.
Proof.
  intros H. rewrite firstn_app.
  replace (i - List.length l1)%nat with 0%nat by lia.
  simpl. apply app_nil_r.
Qed.

Lemma placed_at_more (cs more : list Canvas) (im : image) (r : css_rule) :
  placed_at cs im r -> placed_at (cs ++ more) im r.
Proof.
  intros (E & i & c & Hn & Hin & Ht & Hh). split; [exact E|].
  assert (Hi : (i < List.length cs)%nat) by (apply nth_error_Some; congruence).
  exists i, c. split; [|split; [exact Hin|split; [|exact Hh]]].
  - rewrite nth_error_app1; assumption.
  - rewrite firstn_app_le by lia. exact Ht.
Qed.

Lemma placed_at_paste (cs : list Canvas) (cur : Canvas) (im' : image)
      (box : Z * Z) (im : image) (r : css_rule) :
  placed_at (cs ++ [cur]) im r -> placed_at (cs ++ [paste cur im' box]) im r.
Proof.
  intros (E & i & c & Hn & Hin & Ht & Hh). split; [exact E|].
  assert (Hi : (i < List.length (cs ++ [cur]))%nat)
    by (apply nth_error_Some; congruence).
  rewrite length_app in Hi. simpl in Hi.
  rewrite firstn_app_le in Ht by lia.
  destruct (Nat.eq_dec i (List.length cs)) as [->|Hne].
  - rewrite nth_error_app2, Nat.sub_diag in Hn by lia. simpl in Hn.
    injection Hn as <-.
    exists (List.length cs), (paste cur im' box).
    split; [|split; [|split; [|exact Hh]]].
    + rewrite nth_error_app2, Nat.sub_diag by lia. reflexivity.
    + simpl. apply in_or_app. now left.
    + rewrite firstn_app_le by lia. exact Ht.
  - rewrite nth_error_app1 in Hn by lia.
    exists i, c. split; [|split; [exact Hin|split; [|exact Hh]]].
    + rewrite nth_error_app1 by lia. exact Hn.
    + rewrite firstn_app_le by lia. exact Ht.
Qed.

Lemma placed_here (cs : list Canvas) (c : Canvas) (im : image) (px h : Z) :
  In (im, (px, 0)) (pasted c) -> total_height cs = h ->
  canvas_height c = snd (size im) ->
  placed_at (cs ++ [c]) im (rule_of im (0 - px) (0 - h)).
Proof.
  intros Hin Ht Hh. split; [reflexivity|].
  exists (List.length cs), c. unfold rule_of. cbn [pos_x pos_y].
  split; [|split; [|split; [|exact Hh]]].
  - rewrite nth_error_app2, Nat.sub_diag by lia. reflexivity.
  - replace (0 - (0 - px)) with px by lia. exact Hin.
  - rewrite firstn_app_le, firstn_all by lia. lia.
Qed.

Lemma place_located (ch : Z) (len : nat) (seen : list image) (r : row)
      (index : nat) (im : image) :
  snd (size im) = ch ->
  located_row ch seen r -> located_row ch (seen ++ [im]) (place ch len r (index, im)).
Proof.
  intros Him [HF HH]. split; [|now apply place_heights].
  destruct HH as [Hh Hc].
  assert (Hput : forall more,
    Forall2 (placed_at ((r_canvases r ++ [paste (canvas r) im (x r, 0)]) ++ more))
            (seen ++ [im])
            (r_css r ++ [rule_of im (0 - x r) (0 - r_height r)])).
  { intros more. apply Forall2_app.
    - eapply Forall2_impl; [|exact HF]. intros a b Hab.
      apply placed_at_more. now apply placed_at_paste.
    - constructor; [|constructor]. apply placed_at_more. apply placed_here.
      + simpl. apply in_or_app. right. now left.
      + now rewrite Hh.
      + unfold canvas_height in *. simpl. now rewrite Hc, Him. }
  place_cases ch len r index im; simpl.
  - specialize (Hput []). now rewrite app_nil_r in Hput.
  - apply Hput.
  - specialize (Hput []). now rewrite app_nil_r in Hput.
  - apply Forall2_app.
    + eapply Forall2_impl; [|exact HF]. intros a b Hab. now apply placed_at_more.
    + constructor; [|constructor].
      apply (placed_here (r_canvases r ++ [canvas r]) _ im 0 (r_height r + ch)).
      * simpl. now left.
      * rewrite total_height_app, <- Hh. simpl. unfold canvas_height in *. lia.
      * unfold canvas_height. simpl. now rewrite Him.
Qed.

Lemma pack_key_located (m : images_dict) (seen : list image) (s : sheet)
      (key : string) :
  Forall (fun im => 0 < fst (size im) < sprite_width /\ snd (size im) = snd (key_size key))
         (dict_get m key) ->
  located_sheet seen s ->
  located_sheet (seen ++ dict_get m key) (pack_key m s key).
Proof.
  intros Hg [HF HH]. split; [|now apply pack_key_heights].
  rewrite pack_key_eq. set (ch := snd (key_size key)) in *.
  assert (Hx : x (pack_images ch (dict_get m key) (start_row ch s)) < sprite_width).
  { apply pack_images_x; [reflexivity|].
    eapply Forall_impl; [|exact Hg]. cbv beta. tauto. }
  assert (Hr : located_row ch (seen ++ dict_get m key)
                 (pack_images ch (dict_get m key) (start_row ch s))).
  { apply (pack_images_inv ch (located_row ch) (fun _ im => snd (size im) = ch)).
    - intros. now apply place_located.
    - apply all_ok_Forall. eapply Forall_impl; [|exact Hg]. cbv beta. tauto.
    - split; [|split; [exact HH|reflexivity]].
      eapply Forall2_impl; [|exact HF]. intros a b. apply placed_at_more. }
  destruct Hr as [Hr _]. unfold append_last_row.
  destruct (Z.ltb_spec (x (pack_images ch (dict_get m key) (start_row ch s)))
              sprite_width); [exact Hr|lia].
Qed.

Lemma pack_group_valid (images : list image) (key : string) :
  Forall valid_image images ->
  Forall (fun im => 0 < fst (size im) < sprite_width /\
                    snd (size im) = snd (key_size key))
         (dict_get (organize (sort_images images)) key).
Proof.
  intros V. rewrite Forall_forall in V. apply Forall_forall. intros im Him.
  apply pack_group_image in Him as [Him E]. split; [now apply V|].
  now rewrite <- E, key_size_size_key.
Qed.

Lemma pack_located (images : list image) :
  Forall valid_image images ->
  located_sheet (placed_order images) (pack images).
Proof.
  intros V. unfold pack, placed_order. set (m := organize (sort_images images)).
  assert (H : forall keys seen s,
             located_sheet seen s ->
             located_sheet (seen ++ List.concat (map (dict_get m) keys))
                           (fold_left (pack_key m) keys s)).
  { induction keys as [|k keys IH]; intros seen s Hs; simpl.
    - now rewrite app_nil_r.
    - rewrite app_assoc. apply IH, pack_key_located; [|exact Hs].
      now apply pack_group_valid. }
  apply (H _ [] empty_sheet). split; [constructor|reflexivity].
Qed.

Lemma Forall2_in_r {A B : Type} (R : A -> B -> Prop) (l1 : list A) (l2 : list B)
      (b : B) :
  Forall2 R l1 l2 -> In b l2 -> exists a, In a l1 /\ R a b.
Proof.
  induction 1 as [|a0 b0 l1 l2 H0 H IH]; intros Hin; [destruct Hin|].
  destruct Hin as [<-|Hin]; [exists a0; split; [now left|exact H0]|].
  destruct (IH Hin) as (a & Ha & Hr). exists a. split; [now right|exact Hr].
Qed.

Lemma Forall2_in_l {A B : Type} (R : A -> B -> Prop) (l1 : list A) (l2 : list B)
      (a : A) :
  Forall2 R l1 l2 -> In a l1 -> exists b, In b l2 /\ R a b.
Proof.
  induction 1 as [|a0 b0 l1 l2 H0 H IH]; intros Hin; [destruct Hin|].
  destruct Hin as [<-|Hin]; [exists b0; split; [now left|exact H0]|].
  destruct (IH Hin) as (b & Hb & Hr). exists b. split; [now right|exact Hr].
Qed.

Lemma stack_nth_error (cs : list Canvas) (y : Z) (i : nat) (c : Canvas) :
  nth_error cs i = Some c ->
  nth_error (stack y cs) i = Some (c, (0, y + total_height (firstn i cs))).
Proof.
  revert y i. induction cs as [|c0 cs IH]; intros y i; [now destruct i|].
  destruct i as [|i]; simpl.
  - intros [= ->]. do 3 f_equal. lia.
  - intros H. rewrite (IH _ _ H). do 3 f_equal. lia.
Qed.

Lemma total_height_firstn (cs : list Canvas) (i : nat) (c : Canvas) :
  Forall (fun c => 0 <= canvas_height c) cs -> nth_error cs i = Some c ->
  0 <= total_height (firstn i cs) /\
  total_height (firstn i cs) + canvas_height c <= total_height cs.
Proof.
  intros F. revert i. induction F as [|c0 cs H0 F IH]; intros i; [now destruct i|].
  destruct i as [|i]; simpl.
  - intros [= ->]. assert (0 <= total_height cs); [|lia].
    clear IH. induction F; simpl; lia.
  - intros H. specialize (IH i H). lia.
Qed.

Lemma pack_canvas_heights (images : list image) :
  Forall valid_image images ->
  Forall (fun c => 0 <= canvas_height c) (canvases (pack images)).
Proof.
  intros V. apply Forall_forall. intros c Hc. unfold pack in Hc.
  apply pack_keys_rows in Hc as [[]|(key & Hk & Hs & _)].
  apply (pack_keys_valid images key V) in Hk as [Hk _].
  unfold canvas_height. rewrite Hs. simpl. lia.
Qed.

(** X5: for valid images, every rule of the style sheet is the rule of an
    image of the input and points at it: the sprite has a canvas pasted
    at the height the rule gives, as high as the image, on which the
    image is pasted at the column the rule gives, and the rows the rule
    covers lie within the sprite. *)
Theorem rules_point_at_their_images (sprite_dir : string) (images : list image)
        (sp : Sprite) (style : list css_rule) :
  Forall valid_image images ->
  SpriteCreator_init sprite_dir images = Created sp style ->
  forall r, In r style ->
    exists im c,
      In im images /\ r = rule_of im (pos_x r) (pos_y r) /\
      In (c, (0, 0 - pos_y r)) (blits sp) /\
      In (im, (0 - pos_x r, 0)) (pasted c) /\
      canvas_height c = height r /\
      0 <= 0 - pos_y r /\ (0 - pos_y r) + height r <= snd (sprite_size sp).
Proof.
  intros V H r Hr. apply init_created in H as (_ & -> & ->).
  apply (Permutation_in _ (sort_css_perm _)) in Hr.
  destruct (pack_located images V) as [HF HH].
  destruct (Forall2_in_r _ _ _ r HF Hr) as (im & Him & E & i & c & Hn & Hin & Ht & Hh).
  exists im, c. rewrite compose_eq. simpl.
  pose proof (total_height_firstn _ i c (pack_canvas_heights images V) Hn) as [B1 B2].
  assert (Hheight : height r = snd (size im)) by (rewrite E; reflexivity).
  split; [|split; [exact E|split; [|split; [exact Hin|split; [congruence|]]]]].
  - apply (Permutation_in _ (placed_order_perm images)). exact Him.
  - apply nth_error_In with (n := i). rewrite (stack_nth_error _ 0 i c Hn).
    do 3 f_equal. lia.
  - unfold heights_sheet in HH. rewrite HH. lia.
Qed.

(** X6: for valid images no image is lost: every image of the input is
    pasted on a canvas of the sprite, and the style sheet has the rule of
    that image with the column and the height at which it is found. *)
Theorem every_image_is_in_the_sprite (sprite_dir : string) (images : list image)
        (sp : Sprite) (style : list css_rule) :
  Forall valid_image images ->
  SpriteCreator_init sprite_dir images = Created sp style ->
  forall im, In im images ->
    exists px py c,
      In (rule_of im px py) style /\
      In (c, (0, 0 - py)) (blits sp) /\
      In (im, (0 - px, 0)) (pasted c).
Proof.
  intros V H im Him. apply init_created in H as (_ & -> & ->).
  apply (Permutation_in _ (Permutation_sym (placed_order_perm images))) in Him.
  destruct (pack_located images V) as [HF _].
  destruct (Forall2_in_l _ _ _ im HF Him) as (r & Hr & E & i & c & Hn & Hin & Ht & _).
  exists (pos_x r), (pos_y r), c. rewrite <- E. rewrite compose_eq. simpl.
  split; [|split; [|exact Hin]].
  - apply (Permutation_in _ (Permutation_sym (sort_css_perm _))). exact Hr.
  - apply nth_error_In with (n := i). rewrite (stack_nth_error _ 0 i c Hn).
    do 3 f_equal. lia.
Qed.

(** ** How many canvases there are *)

Lemma images_dict_nonempty (images : list image) (key : string) :
  In key (dict_keys (organize (sort_images images))) ->
  dict_get (organize (sort_images images)) key <> [].
Proof.
  intros Hk. apply organize_keys in Hk as (im & Him & E).
  rewrite organize_get. intros Hnil.
  assert (Hin : In im (filter (has_key key) (sort_images images))).
  { apply filter_In. split; [exact Him|]. unfold has_key. now apply String.eqb_eq. }
  rewrite Hnil in Hin. destruct Hin.
Qed.

Lemma place_count (ch : Z) (len : nat) (n0 : nat) (seen : list image) (r : row)
      (index : nat) (im : image) :
  0 < fst (size im) < sprite_width ->
  count_row n0 seen r -> count_row n0 (seen ++ [im]) (place ch len r (index, im)).
Proof.
  intros Hw (Hn & Hpos & Hx). unfold count_row. rewrite length_app.
  change (List.length [im]) with 1%nat.
  destruct (Z.ltb_spec 0 (x r)) as [Hx0|Hx0].
  - place_cases ch len r index im; simpl; rewrite ?length_app; simpl;
      repeat split; try lia;
      try (destruct (Z.ltb_spec 0 (x r + fst (size im))); lia);
      try (destruct (Z.ltb_spec 0 (fst (size im))); lia);
      try (destruct (Z.ltb_spec 0 (x r)); lia).
  - assert (x r = 0) by lia.
    place_cases ch len r index im; simpl; rewrite ?length_app; simpl;
      repeat split; try lia;
      try (destruct (Z.ltb_spec 0 (x r + fst (size im))); lia).
Qed.

Lemma pack_key_count (m : images_dict) (s : sheet) (key : string) :
  dict_get m key <> [] ->
  Forall (fun im => 0 < fst (size im) < sprite_width) (dict_get m key) ->
  (List.length (canvases (pack_key m s key)) <=
   List.length (canvases s) + List.length (dict_get m key))%nat.
Proof.
  intros Hne Hg. rewrite pack_key_eq. set (ch := snd (key_size key)).
  assert (H : count_row (List.length (canvases s)) ([] ++ dict_get m key)
                (pack_images ch (dict_get m key) (start_row ch s))).
  { apply (pack_images_inv ch (count_row (List.length (canvases s)))
             (fun _ im => 0 < fst (size im) < sprite_width)).
    - intros. now apply place_count.
    - now apply all_ok_Forall.
    - unfold count_row. simpl. repeat split; try lia. intros E. now destruct E. }
  simpl in H. destruct H as (Hn & Hpos & _). specialize (Hpos Hne).
  destruct (Z.ltb_spec 0 (x (pack_images ch (dict_get m key) (start_row ch s))));
    [|lia].
  unfold append_last_row. destruct (x _ <? sprite_width); simpl;
    rewrite ?length_app; simpl; lia.
Qed.

Lemma total_height_level (ch : Z) (rows : list Canvas) :
  Forall (fun c => canvas_size c = (sprite_width, ch) /\
                   canvas_color c = transparent) rows ->
  total_height rows = ch * Z.of_nat (List.length rows).
Proof.
  induction 1 as [|c rows [Hc _] F IH]; simpl; [lia|].
  rewrite IH. unfold canvas_height. rewrite Hc. simpl. lia.
Qed.

Lemma sum_heights_level (ch : Z) (group : list image) :
  Forall (fun im => snd (size im) = ch) group ->
  sum_heights group = ch * Z.of_nat (List.length group).
Proof.
  induction 1 as [|im group Him F IH]; simpl; [lia|]. rewrite IH, Him. lia.
Qed.

Lemma sum_heights_app (l1 l2 : list image) :
  sum_heights (l1 ++ l2) = sum_heights l1 + sum_heights l2.
Proof.
  induction l1 as [|im l1 IH]; simpl; [reflexivity|]. rewrite IH. lia.
Qed.

Lemma sum_heights_perm (l1 l2 : list image) :
  Permutation l1 l2 -> sum_heights l1 = sum_heights l2.
Proof.
  induction 1; simpl; lia.
Qed.

Lemma pack_key_bound (m : images_dict) (s : sheet) (key : string) :
  dict_get m key <> [] -> 0 < snd (key_size key) ->
  Forall (fun im => 0 < fst (size im) < sprite_width /\
                    snd (size im) = snd (key_size key)) (dict_get m key) ->
  (List.length (canvases (pack_key m s key)) <=
   List.length (canvases s) + List.length (dict_get m key))%nat /\
  total_height (canvases (pack_key m s key)) <=
  total_height (canvases s) + sum_heights (dict_get m key).
Proof.
  intros Hne Hch Hg.
  assert (Hn : (List.length (canvases (pack_key m s key)) <=
                List.length (canvases s) + List.length (dict_get m key))%nat).
  { apply pack_key_count; [exact Hne|].
    eapply Forall_impl; [|exact Hg]. cbv beta. tauto. }
  split; [exact Hn|].
  destruct (pack_key_shape m s key) as (rows & E & F).
  rewrite E, length_app in Hn. rewrite E, total_height_app.
  rewrite (total_height_level _ _ F).
  rewrite (sum_heights_level (snd (key_size key))).
  - nia.
  - eapply Forall_impl; [|exact Hg]. cbv beta. tauto.
Qed.

Lemma pack_keys_bound (m : images_dict) (keys : list string) (s : sheet) :
  (forall key, In key keys ->
     dict_get m key <> [] /\ 0 < snd (key_size key) /\
     Forall (fun im => 0 < fst (size im) < sprite_width /\
                       snd (size im) = snd (key_size key)) (dict_get m key)) ->
  (List.length (canvases (fold_left (pack_key m) keys s)) <=
   List.length (canvases s) + List.length (List.concat (map (dict_get m) keys)))%nat /\
  total_height (canvases (fold_left (pack_key m) keys s)) <=
  total_height (canvases s) + sum_heights (List.concat (map (dict_get m) keys)).
Proof.
  revert s. induction keys as [|k keys IH]; intros s Hk; simpl; [lia|].
  destruct (Hk k (or_introl eq_refl)) as (H1 & H2 & H3).
  destruct (pack_key_bound m s k H1 H2 H3) as [B1 B2].
  destruct (IH (pack_key m s k)) as [B3 B4].
  { intros key Hin. apply Hk. now right. }
  rewrite length_app, sum_heights_app. lia.
Qed.

(** X7: for valid images the sprite has at most as many canvases as there
    are images, and is at most as high as the images put one above the
    other (a canvas is appended twice only for a row of two images or
    more). *)
Theorem sprite_is_no_higher_than_the_images (images : list image) :
  Forall valid_image images ->
  (List.length (canvases (pack images)) <= List.length images)%nat /\
  sprite_height (pack images) <= sum_heights images.
Proof.
  intros V.
  pose proof (pack_heights images) as HH. unfold heights_sheet in HH. rewrite HH.
  pose proof (placed_order_perm images) as P.
  rewrite <- (Permutation_length P), <- (sum_heights_perm _ _ P).
  unfold pack, placed_order. set (m := organize (sort_images images)).
  apply (pack_keys_bound m (sorted_keys m) empty_sheet).
  intros key Hk. split; [|split].
  - apply sort_keys_in in Hk. now apply (images_dict_nonempty images).
  - now apply (pack_keys_valid images key V).
  - now apply pack_group_valid.
Qed.

(** ** The order of the style sheet *)

Lemma sprite_css_tail (r : css_rule) :
  sprite_css r = String "." (cls r ++ String " " (css_tail r)).
Proof. reflexivity. Qed.

Lemma ascii_compare_refl (c : ascii) : Ascii.compare c c = Eq.
Proof. unfold Ascii.compare. apply N.compare_refl. Qed.

(** Two different names are compared the same way with or without what
    follows them in the rule, when their characters are above the space. *)
Lemma compare_before_space (n1 n2 t1 t2 : string) :
  above_space n1 -> above_space n2 -> n1 <> n2 ->
  String.compare (n1 ++ String " " t1) (n2 ++ String " " t2) = String.compare n1 n2.
Proof.
  revert n2. induction n1 as [|c1 n1 IH]; intros [|c2 n2] A1 A2 Hne; simpl.
  - now destruct Hne.
  - destruct A2 as [A2 _]. now rewrite A2.
  - destruct A1 as [A1 _]. rewrite Ascii.compare_antisym, A1. reflexivity.
  - destruct A1 as [_ A1], A2 as [_ A2].
    destruct (Ascii.compare c1 c2) eqn:E; try reflexivity.
    apply Ascii.compare_eq_iff in E. subst c2.
    apply IH; auto. congruence.
Qed.

Lemma pack_rule_names (images : list image) :
  Permutation (map cls (css (pack images))) (map filename images).
Proof.
  assert (E : forall l, map cls l = map fst (map rule_info l)).
  { intros l. rewrite map_map. reflexivity. }
  rewrite E, pack_info, map_map. simpl.
  apply Permutation_map, placed_order_perm.
Qed.

(** X8: when the names of the images are pairwise distinct and made of
    characters above the space, the style sheet, which is sorted as
    text, lists the rules in strictly ascending order of their class
    names. *)
Theorem style_is_sorted_by_class (sprite_dir : string) (images : list image)
        (sp : Sprite) (style : list css_rule) :
  NoDup (map filename images) ->
  Forall (fun im => above_space (filename im)) images ->
  SpriteCreator_init sprite_dir images = Created sp style ->
  StronglySorted cls_lt style.
Proof.
  intros N A H. apply init_created in H as (_ & _ & ->).
  set (l := css (pack images)).
  assert (Nl : NoDup (map cls l)).
  { eapply Permutation_NoDup; [symmetry; apply pack_rule_names|exact N]. }
  assert (Al : forall r, In r l -> above_space (cls r)).
  { intros r Hr. apply (in_map cls) in Hr.
    apply (Permutation_in _ (pack_rule_names images)) in Hr.
    apply in_map_iff in Hr as (im & <- & Him).
    rewrite Forall_forall in A. now apply A. }
  pose proof (sort_css_perm l) as P.
  apply (StronglySorted_strict (key_le sprite_css String.leb)).
  - intros a b Ha Hb Hab Hne.
    apply (Permutation_in _ P) in Ha, Hb.
    assert (Hcls : cls a <> cls b).
    { intros E. apply Hne. now apply (NoDup_map_inj cls l). }
    unfold key_le, String.leb in Hab. unfold cls_lt, String.ltb.
    rewrite !sprite_css_tail in Hab. cbn [String.compare] in Hab.
    rewrite ascii_compare_refl in Hab.
    rewrite compare_before_space in Hab by auto.
    destruct (String.compare (cls a) (cls b)) eqn:E; try easy.
    now apply String.compare_eq_iff in E.
  - eapply Permutation_NoDup; [symmetry; exact P|].
    eapply NoDup_map_inv. exact Nl.
  - apply sort_sorted; [apply String.leb_total|apply string_leb_trans].
Qed.

(** A space in a name is enough to lose that order: the rule of "a b"
    comes before the rule of "a". *)
Lemma space_in_name_breaks_order :
  map cls (sort_css (css (pack [img "a" 10 10; img "a b" 10 10]))) =
  ["a b"%string; "a"%string].
Proof. vm_compute. reflexivity. Qed.

(** ** From the name of a file to the class of its rule *)

Lemma split_head (c : ascii) (s : string) :
  exists h t rest,
    Py.split c s = h :: t /\ no_char c h /\ s = (h ++ rest)%string /\
    (rest = EmptyString \/ exists rest', rest = String c rest').
Proof.
  induction s as [|a s (h & t & rest & E & Hn & Hs & Hr)]; simpl.
  - exists EmptyString, [], EmptyString. repeat split. now left.
  - destruct (Ascii.eqb_spec a c) as [->|Hne].
    + exists EmptyString, (Py.split c s), (String c s). repeat split.
      right. now exists s.
    + rewrite E. exists (String a h), t, rest. simpl.
      repeat split; auto. now rewrite <- Hs.
Qed.

(** X9: the name stored on an image is the part of the base name of its
    file before the first dot, and holds no dot.  A base name made of a
    stem without a dot, a dot and anything after it gets the stem as its
    name: "sword.png" is stored as "sword", and "a.x.png" and "a.y.png"
    both as "a"; a base name without a dot is stored whole. *)
Theorem name_is_base_up_to_first_dot :
  (forall base,
     no_char "." (image_filename base) /\
     exists rest, base = (image_filename base ++ rest)%string /\
                  (rest = EmptyString \/ exists rest', rest = String "." rest')) /\
  (forall stem rest, no_char "." stem ->
     image_filename (stem ++ String "." rest) = stem) /\
  (forall base, no_char "." base -> image_filename base = base).
Proof.
  split; [|split].
  - intros base. unfold image_filename.
    destruct (split_head "." base) as (h & t & rest & E & Hn & Hs & Hr).
    rewrite E. simpl. split; [exact Hn|]. now exists rest.
  - intros stem rest Hn. unfold image_filename. now rewrite split_app.
  - intros base Hn. unfold image_filename. now rewrite split_no_char.
Qed.

(** ** Rules never overlap *)

Lemma total_height_nonneg (cs : list Canvas) :
  Forall (fun c => 0 <= canvas_height c) cs -> 0 <= total_height cs.
Proof. induction 1; simpl; lia. Qed.

Lemma prefix_heights_mono (cs : list Canvas) (a b : nat) (c : Canvas) :
  Forall (fun c => 0 <= canvas_height c) cs -> (a < b)%nat ->
  nth_error cs a = Some c ->
  total_height (firstn a cs) + canvas_height c <= total_height (firstn b cs).
Proof.
  intros F. revert a b. induction F as [|c0 cs H0 F IH]; intros a b Hab Ha.
  - now destruct a.
  - destruct b as [|b]; [lia|]. destruct a as [|a]; simpl in *.
    + injection Ha as ->.
      assert (0 <= total_height (firstn b cs)); [|lia].
      apply total_height_nonneg.
      rewrite Forall_forall in *. intros c' Hc'. apply F.
      eapply (In_nth_error) in Hc' as [n Hn].
      apply nth_error_In with (n := n).
      rewrite nth_error_firstn in Hn. now destruct (n <? b)%nat.
    + specialize (IH a b). assert ((a < b)%nat) by lia. specialize (IH H Ha). lia.
Qed.

Lemma placed_rows_apart (cs : list Canvas) (im1 im2 : image) (r1 r2 : css_rule) :
  Forall (fun c => 0 <= canvas_height c) cs ->
  placed_at cs im1 r1 -> placed_at cs im2 r2 -> pos_y r1 <> pos_y r2 ->
  rule_y r1 + height r1 <= rule_y r2 \/ rule_y r2 + height r2 <= rule_y r1.
Proof.
  intros F (E1 & a & c1 & Ha & _ & Ta & Ca) (E2 & b & c2 & Hb & _ & Tb & Cb) Hne.
  assert (H1 : height r1 = canvas_height c1) by (rewrite E1, Ca; reflexivity).
  assert (H2 : height r2 = canvas_height c2) by (rewrite E2, Cb; reflexivity).
  unfold rule_y. rewrite H1, H2, <- Ta, <- Tb.
  destruct (Nat.lt_total a b) as [L|[E|L]].
  - left. now apply prefix_heights_mono.
  - subst b. exfalso. apply Hne. lia.
  - right. now apply prefix_heights_mono.
Qed.

(** X10: for valid images the rectangles of two rules of the style sheet
    never overlap: two rules either cover different columns or different
    rows of the sprite. *)
Theorem rules_never_overlap (sprite_dir : string) (images : list image)
        (sp : Sprite) (style : list css_rule) :
  Forall valid_image images ->
  SpriteCreator_init sprite_dir images = Created sp style ->
  forall i j ri rj,
    i <> j -> nth_error style i = Some ri -> nth_error style j = Some rj ->
    disjoint_rules ri rj.
Proof.
  intros V H i j ri rj Hij Hi Hj. apply init_created in H as (_ & _ & ->).
  destruct (pack_spans images V) as [F P].
  assert (W : Forall (fun c => 0 < width c) (css (pack images))).
  { eapply Forall_impl; [|exact F]. cbv beta. tauto. }
  pose proof (apart_NoDup _ W P) as N.
  pose proof (sort_css_perm (css (pack images))) as Perm.
  assert (Hne : ri <> rj).
  { intros ->. apply Hij.
    apply (proj1 (NoDup_nth_error (sort_css (css (pack images))))).
    - eapply Permutation_NoDup; [symmetry; exact Perm|exact N].
    - apply nth_error_Some. congruence.
    - congruence. }
  apply nth_error_In in Hi, Hj.
  apply (Permutation_in _ Perm) in Hi, Hj.
  unfold disjoint_rules.
  destruct (Z.eq_dec (pos_y ri) (pos_y rj)) as [Ey|Ny].
  - destruct (ForallOrdPairs_In P ri rj Hi Hj) as [E|[A|A]]; [contradiction| |].
    + specialize (A Ey). tauto.
    + symmetry in Ey. specialize (A Ey). tauto.
  - destruct (pack_located images V) as [HF _].
    destruct (Forall2_in_r _ _ _ ri HF Hi) as (im1 & _ & P1).
    destruct (Forall2_in_r _ _ _ rj HF Hj) as (im2 & _ & P2).
    pose proof (placed_rows_apart _ im1 im2 ri rj
                  (pack_canvas_heights images V) P1 P2 Ny).
    tauto.
Qed.

(** ** No empty canvas *)

Lemma paste_filled (c : Canvas) (im : image) (box : Z * Z) :
  pasted (paste c im box) <> [].
Proof. simpl. intros H. now apply app_eq_nil in H as [_ H]. Qed.

Lemma place_filled (ch : Z) (len : nat) (seen : list image) (r : row)
      (index : nat) (im : image) :
  0 < fst (size im) < sprite_width ->
  filled_row seen r -> filled_row (seen ++ [im]) (place ch len r (index, im)).
Proof.
  intros Hw [Hs Hc]. unfold filled_row.
  place_cases ch len r index im; cbn [r_canvases canvas x].
  - split; [exact Hs|]. right. apply paste_filled.
  - split; [|right; apply paste_filled].
    apply Forall_app. split; [exact Hs|].
    constructor; [apply paste_filled|constructor].
  - split; [exact Hs|]. right. apply paste_filled.
  - split; [|right; apply paste_filled].
    apply Forall_app. split; [exact Hs|]. constructor; [|constructor].
    destruct Hc as [[_ Hx]|Hc]; [lia|exact Hc].
Qed.

Lemma pack_key_filled (m : images_dict) (s : sheet) (key : string) :
  dict_get m key <> [] ->
  Forall (fun im => 0 < fst (size im) < sprite_width) (dict_get m key) ->
  Forall (fun c => pasted c <> []) (canvases s) ->
  Forall (fun c => pasted c <> []) (canvases (pack_key m s key)).
Proof.
  intros Hne Hg Hs. rewrite pack_key_eq. set (ch := snd (key_size key)).
  assert (H : filled_row ([] ++ dict_get m key)
                (pack_images ch (dict_get m key) (start_row ch s))).
  { apply (pack_images_inv ch filled_row
             (fun _ im => 0 < fst (size im) < sprite_width)).
    - intros. now apply place_filled.
    - now apply all_ok_Forall.
    - split; [exact Hs|]. now left. }
  simpl in H. destruct H as [H1 [[E _]|H2]]; [contradiction|].
  unfold append_last_row. destruct (x _ <? sprite_width); simpl; [|exact H1].
  apply Forall_app. split; [exact H1|]. now constructor.
Qed.

(** X11: for valid images no canvas of the sprite is empty: every row of
    the sprite holds at least one image. *)
Theorem no_canvas_is_empty (images : list image) :
  Forall valid_image images ->
  Forall (fun c => pasted c <> []) (canvases (pack images)).
Proof.
  intros V. unfold pack. set (m := organize (sort_images images)).
  assert (H : forall keys s,
             (forall key, In key keys -> In key (sorted_keys m)) ->
             Forall (fun c => pasted c <> []) (canvases s) ->
             Forall (fun c => pasted c <> [])
                    (canvases (fold_left (pack_key m) keys s))).
  { induction keys as [|k keys IH]; intros s Hk Hs; simpl; [exact Hs|].
    apply IH; [intros key Hin; apply Hk; now right|].
    assert (Hin : In k (sorted_keys m)) by (apply Hk; now left).
    apply pack_key_filled; [| |exact Hs].
    - apply sort_keys_in in Hin. now apply (images_dict_nonempty images).
    - now apply (pack_keys_valid images k V). }
  apply H; [auto|constructor].
Qed.

(** An image wider than 768 pixels does leave an empty canvas. *)
Lemma wide_image_leaves_empty_canvas :
  canvases (pack [img "wide" 800 50]) = [Image_new (768, 50) transparent].
Proof. vm_compute. reflexivity. Qed.

(** ** The further properties at work *)

Lemma no_canvas_is_empty_witness :
  let images := [img "a" 384 50; img "b" 384 50; img "c" 10 40] in
  Forall (fun c => pasted c <> []) (canvases (pack images)).
Proof.
  intros images. apply (no_canvas_is_empty images).
  repeat constructor; simpl; unfold sprite_width; lia.
Defined.

Lemma rules_point_at_their_images_witness :
  let images := [img "a" 384 50; img "b" 384 50; img "c" 10 40] in
  let sp := compose (pack images) in
  let style := sort_css (css (pack images)) in
  Forall valid_image images /\
  (forall r, In r style ->
     exists im c,
       In im images /\ r = rule_of im (pos_x r) (pos_y r) /\
       In (c, (0, 0 - pos_y r)) (blits sp) /\
       In (im, (0 - pos_x r, 0)) (pasted c) /\
       canvas_height c = height r /\
       0 <= 0 - pos_y r /\ (0 - pos_y r) + height r <= snd (sprite_size sp)).
Proof.
  intros images sp style.
  assert (V : Forall valid_image images)
    by (repeat constructor; simpl; unfold sprite_width; lia).
  split; [exact V|].
  exact (rules_point_at_their_images "sprites" images sp style V eq_refl).
Defined.

Lemma every_image_is_in_the_sprite_witness :
  let images := [img "a" 384 50; img "b" 384 50; img "c" 10 40] in
  let sp := compose (pack images) in
  let style := sort_css (css (pack images)) in
  Forall valid_image images /\
  (forall im, In im images ->
     exists px py c,
       In (rule_of im px py) style /\
       In (c, (0, 0 - py)) (blits sp) /\
       In (im, (0 - px, 0)) (pasted c)).
Proof.
  intros images sp style.
  assert (V : Forall valid_image images)
    by (repeat constructor; simpl; unfold sprite_width; lia).
  split; [exact V|].
  exact (every_image_is_in_the_sprite "sprites" images sp style V eq_refl).
Defined.

Lemma sprite_is_no_higher_than_the_images_witness :
  let images := [img "a" 384 50; img "b" 384 50; img "c" 10 40] in
  (List.length (canvases (pack images)) <= List.length images)%nat /\
  sprite_height (pack images) <= sum_heights images.
Proof.
  intros images. apply (sprite_is_no_higher_than_the_images images).
  repeat constructor; simpl; unfold sprite_width; lia.
Defined.

Lemma style_is_sorted_by_class_witness :
  let images := [img "b" 384 50; img "c" 10 40; img "a" 384 50] in
  StronglySorted cls_lt (sort_css (css (pack images))).
Proof.
  intros images.
  apply (style_is_sorted_by_class "sprites" images (compose (pack images))).
  - simpl. repeat constructor; simpl; intuition discriminate.
  - repeat constructor.
  - reflexivity.
Defined.

Lemma rules_never_overlap_witness :
  let images := [img "a" 384 50; img "b" 384 50; img "c" 10 40] in
  let style := sort_css (css (pack images)) in
  Forall valid_image images /\
  (forall i j ri rj,
     i <> j -> nth_error style i = Some ri -> nth_error style j = Some rj ->
     disjoint_rules ri rj).
Proof.
  intros images style.
  assert (V : Forall valid_image images)
    by (repeat constructor; simpl; unfold sprite_width; lia).
  split; [exact V|].
  exact (rules_never_overlap "sprites" images (compose (pack images)) style V eq_refl).
Defined.

Lemma images_are_side_by_side_witness :
  let images := [img "a" 384 50; img "b" 384 50; img "c" 10 40] in
  Forall (fun c => tight 0 (pasted c)) (canvases (pack images)) /\
  Forall (fun c => width_sum (pasted c) <= sprite_width) (canvases (pack images)).
Proof.
  intros images. destruct (images_are_side_by_side images) as [H1 H2].
  split; [exact H1|]. apply H2.
  repeat constructor; simpl; unfold sprite_width; lia.
Defined.
